(** * RSA_Image: the number-theoretic core of [rsa_image.py]

    A shallow embedding of the RSA functions of [src/rsa_image.py]
    (primality test, prime generation, gcd, modular inverse, key-pair
    construction and the two block codecs) together with the properties
    the specification states about them.

    Python integers are unbounded, so they are [Z]; [%] and [//] are the
    floor operations [Z.modulo] and [Z.div].  A Python [str] is the list
    of its code points, a [bytes] object is a [list byte].  The calls to
    [random] read successive cells of an explicit tape, the unbounded
    [while] loops take fuel, and [st.error] appends to a log that is
    returned next to the value; the [st.info] and [st.success] lines of
    [generate_keypair] only display values and are left out. *)

From Stdlib Require Import ZArith Znumtheory Zpow_facts Zdivisibility Zcong.
From Stdlib Require Import Zmod.ZmodInv.
From Stdlib Require Import List Bool Lia.
From Stdlib Require Import Strings.Byte.
From Stdlib Require Strings.String.
Import ListNotations.

#[local] Open Scope Z_scope.

(** ** Outcomes of a Python call *)

Inductive exn : Type :=
| ValueError
| ZeroDivisionError
| OverflowError.

(** [Timeout] stands for a loop that used up the fuel it was given. *)
Inductive outcome (A : Type) : Type :=
| Ok (a : A)
| Raise (e : exn)
| Timeout.

Arguments Ok {A} a.
Arguments Raise {A} e.
Arguments Timeout {A}.

Definition obind {A B} (o : outcome A) (k : A -> outcome B) : outcome B :=
  match o with
  | Ok a => k a
  | Raise e => Raise e
  | Timeout => Timeout
  end.

(** ** Built-ins used by the source *)

Module Builtins.

(** [pow(a, b, c)]: the modulus must not be zero; a negative exponent
    asks for the inverse of the base, which must exist. *)
Definition pow3 (a b c : Z) : outcome Z :=
  if c =? 0 then Raise ValueError
  else if b <? 0 then
    if Z.gcd a c =? 1 then Ok (Zpow_mod (Z.invmod a (Z.abs c)) (- b) c)
    else Raise ValueError
  else Ok (Zpow_mod a b c).

(** [1 << k] *)
Definition shiftl (a k : Z) : outcome Z :=
  if k <? 0 then Raise ValueError else Ok (Z.shiftl a k).

(** [chr(v)]: the argument is converted to a C int first. *)
Definition chr (v : Z) : outcome Z :=
  if (0 <=? v) && (v <? 0x110000) then Ok v
  else if (- 2 ^ 31 <=? v) && (v <? 2 ^ 31) then Raise ValueError
  else Raise OverflowError.

(** [ord(ch)] of a one-character string is the code point itself. *)
Definition ord (ch : Z) : Z := ch.

End Builtins.
Import Builtins.

(** ** The [random] module: a tape of raw draws *)

Record rng : Type := mkRng { tape : nat -> Z; pos : nat }.

Definition M (A : Type) : Type := rng -> outcome (A * rng).

Definition ret {A} (a : A) : M A := fun r => Ok (a, r).

Definition bind {A B} (m : M A) (k : A -> M B) : M B :=
  fun r => match m r with
           | Ok (a, r') => k a r'
           | Raise e => Raise e
           | Timeout => Timeout
           end.

Definition lift {A} (o : outcome A) : M A :=
  fun r => match o with
           | Ok a => Ok (a, r)
           | Raise e => Raise e
           | Timeout => Timeout
           end.

Definition timeout {A} : M A := fun _ => Timeout.

Declare Scope rsa_scope.
Delimit Scope rsa_scope with rsa.
Notation "x <- m ;; k" := (bind m (fun x => k))
  (at level 61, m at next level, right associativity) : rsa_scope.
#[local] Open Scope rsa_scope.

Definition draw : M Z :=
  fun r => Ok (tape r (pos r), mkRng (tape r) (S (pos r))).

(** [random.randint(lo, hi)]: any value of [lo..hi], an empty range is
    an error. *)
Definition randint (lo hi : Z) : M Z :=
  if hi <? lo then lift (Raise ValueError)
  else (x <- draw ;; ret (lo + x mod (hi - lo + 1))).

(** [random.getrandbits(k)]: any value of [0 .. 2^k - 1]. *)
Definition getrandbits (k : Z) : M Z :=
  if k <? 0 then lift (Raise ValueError)
  else (x <- draw ;; ret (x mod 2 ^ k)).

(** A tape that starts with the given draws and goes on with zeros. *)
Definition tape_of (l : list Z) : rng := mkRng (fun i => nth i l 0) 0.

(** ** [gcd] and [mod_inverse] *)

(** Fuel for a Euclidean loop whose divisor starts at [b]: after the
    first step the divisor at least halves every two steps. *)
Definition euclid_fuel (b : Z) : nat := Z.to_nat (2 * Z.log2 (Z.abs b)) + 3.

Fixpoint gcd_loop (fuel : nat) (a b : Z) : option Z :=
  match fuel with
  | O => None
  | S fuel' => if b =? 0 then Some a else gcd_loop fuel' b (a mod b)
  end.

Definition gcd (a b : Z) : Z :=
  match gcd_loop (euclid_fuel b) a b with
  | Some g => g
  | None => 0
  end.

Fixpoint mod_inverse_loop (fuel : nat) (a m x y : Z) : outcome Z :=
  match fuel with
  | O => Timeout
  | S fuel' =>
      if 1 <? a then
        if m =? 0 then Raise ZeroDivisionError
        else
          let q := a / m in
          mod_inverse_loop fuel' m (a mod m) y (x - q * y)
      else Ok x
  end.

Definition mod_inverse (a m : Z) : outcome Z :=
  let m0 := m in
  if m =? 1 then Ok 0
  else
    obind (mod_inverse_loop (euclid_fuel m) a m 1 0)
          (fun x => if x <? 0 then Ok (x + m0) else Ok x).

(** ** [is_prime]: Miller-Rabin *)

(** [while d % 2 == 0: s += 1; d //= 2] on a positive [d]. *)
Fixpoint factor_twos (s : nat) (d : positive) : nat * positive :=
  match d with
  | xO d' => factor_twos (S s) d'
  | _ => (s, d)
  end.

(** The inner [for ... else]: [true] when the loop left through [break],
    [false] when it ran to its end. *)
Fixpoint squarings (i : nat) (x n : Z) : outcome bool :=
  match i with
  | O => Ok false
  | S i' =>
      obind (pow3 x 2 n)
            (fun x' => if x' =? n - 1 then Ok true else squarings i' x' n)
  end.

Fixpoint trials (k : nat) (n d : Z) (s : nat) : M bool :=
  match k with
  | O => ret true
  | S k' =>
      a <- randint 2 (n - 2) ;;
      x <- lift (pow3 a d n) ;;
      if (x =? 1) || (x =? n - 1) then trials k' n d s
      else
        hit <- lift (squarings (s - 1) x n) ;;
        if hit then trials k' n d s else ret false
  end.

Definition is_prime (n : Z) (k : nat) : M bool :=
  if (n <=? 1) || (n =? 4) then ret false
  else if n <=? 3 then ret true
  else if n mod 2 =? 0 then ret false
  else
    match n - 1 with
    | Zpos p => let '(s, d) := factor_twos 0 p in trials k n (Zpos d) s
    | Zneg p => let '(s, d) := factor_twos 0 p in trials k n (Zneg d) s
    | Z0 => timeout
    end.

(** The default [k=5] of the source; every call site uses it. *)
Definition default_k : nat := 5.

(** ** [generate_prime] and [generate_keypair] *)

Fixpoint generate_prime (fuel : nat) (bits : Z) : M Z :=
  match fuel with
  | O => timeout
  | S fuel' =>
      r <- getrandbits bits ;;
      msb <- lift (shiftl 1 (bits - 1)) ;;
      let p := Z.lor r (Z.lor msb 1) in
      ok <- is_prime p default_k ;;
      if ok then ret p else generate_prime fuel' bits
  end.

Definition public_key : Type := Z * Z.
Definition private_key : Type := Z * Z.

(** [while p == q: q = generate_prime(bits // 2)] *)
Fixpoint regenerate_q (fuel0 fuel : nat) (half p q : Z) : M Z :=
  if negb (p =? q) then ret q
  else
    match fuel with
    | O => timeout
    | S fuel' =>
        q' <- generate_prime fuel0 half ;;
        regenerate_q fuel0 fuel' half p q'
    end.

(** [while gcd(e, phi) != 1: e = random.randint(2, phi - 1)] *)
Fixpoint choose_e (fuel : nat) (phi e : Z) : M Z :=
  if gcd e phi =? 1 then ret e
  else
    match fuel with
    | O => timeout
    | S fuel' =>
        e' <- randint 2 (phi - 1) ;;
        choose_e fuel' phi e'
    end.

Definition generate_keypair (fuel : nat) (bits : Z)
  : M (public_key * private_key) :=
  p <- generate_prime fuel (bits / 2) ;;
  q <- generate_prime fuel (bits / 2) ;;
  q <- regenerate_q fuel fuel (bits / 2) p q ;;
  let n := p * q in
  let phi := (p - 1) * (q - 1) in
  e <- randint 2 (phi - 1) ;;
  e <- choose_e fuel phi e ;;
  d <- lift (mod_inverse e phi) ;;
  ret ((n, e), (n, d)).

(** ** The block codecs *)

(** What [st.error] is called with. *)
Inductive st_error : Type :=
| UnitTooLarge (code n : Z)
| InvalidByteValue (v : Z).

Definition byte_val (b : byte) : Z := Z.of_N (Byte.to_N b).

Fixpoint encrypt_text_loop (n e : Z) (plaintext acc : list Z)
  : outcome (list Z * list st_error) :=
  match plaintext with
  | [] => Ok (acc, [])
  | ch :: rest =>
      let char_as_int := ord ch in
      if char_as_int >=? n then Ok ([], [UnitTooLarge char_as_int n])
      else
        obind (pow3 char_as_int e n)
              (fun c => encrypt_text_loop n e rest (acc ++ [c]))
  end.

Definition encrypt_text (key : public_key) (plaintext : list Z)
  : outcome (list Z * list st_error) :=
  let '(n, e) := key in encrypt_text_loop n e plaintext [].

Fixpoint decrypt_text_loop (n d : Z) (cipher acc : list Z)
  : outcome (list Z) :=
  match cipher with
  | [] => Ok acc
  | c :: rest =>
      obind (pow3 c d n) (fun v =>
      obind (chr v) (fun ch =>
      decrypt_text_loop n d rest (acc ++ [ch])))
  end.

Definition decrypt_text (key : private_key) (cipher : list Z)
  : outcome (list Z) :=
  let '(n, d) := key in decrypt_text_loop n d cipher [].

Fixpoint encrypt_bytes_loop (n e : Z) (data : list byte) (acc : list Z)
  : outcome (list Z) :=
  match data with
  | [] => Ok acc
  | b :: rest =>
      obind (pow3 (byte_val b) e n)
            (fun c => encrypt_bytes_loop n e rest (acc ++ [c]))
  end.

Definition encrypt_bytes (key : public_key) (data : list byte)
  : outcome (list Z) :=
  let '(n, e) := key in encrypt_bytes_loop n e data [].

(** [v.to_bytes(1, 'big')] *)
Definition to_byte (v : Z) : outcome byte :=
  if (0 <=? v) && (v <=? 255) then
    match Byte.of_N (Z.to_N v) with
    | Some b => Ok b
    | None => Raise OverflowError
    end
  else Raise OverflowError.

Fixpoint decrypt_bytes_loop (n d : Z) (cipher : list Z) (acc : list byte)
  : outcome (list byte * list st_error) :=
  match cipher with
  | [] => Ok (acc, [])
  | c :: rest =>
      obind (pow3 c d n) (fun v =>
      if negb ((0 <=? v) && (v <=? 255)) then Ok ([], [InvalidByteValue v])
      else
        obind (to_byte v)
              (fun b => decrypt_bytes_loop n d rest (acc ++ [b])))
  end.

Definition decrypt_bytes (key : private_key) (cipher : list Z)
  : outcome (list byte * list st_error) :=
  let '(n, d) := key in decrypt_bytes_loop n d cipher [].

(** ** The Streamlit pages

    The script below the functions is run from top to bottom on every
    interaction.  Each page is a function of the values its widgets
    return on that run (slider, text area, buttons, uploaded file) and
    of [st.session_state]; it gives the new session state and the
    status messages it raised with [st.success], [st.error] and
    [st.warning], in order.  Calls that only display a value
    ([st.header], [st.write], [st.info], [st.code], [st.caption],
    [st.image] when it succeeds) are left out. *)

Record session : Type := mkSession {
  ss_public_key : option public_key;
  ss_private_key : option private_key;
  ss_encrypted_text_msg : list Z;
  ss_original_text_msg : list Z;
  ss_decrypted_text_msg : list Z;
  ss_encrypted_image_data : list Z;
  ss_original_image_bytes : option (list byte);
  ss_original_image_type : option String.string;
  ss_last_key_bits : option Z
}.

(** The values the script gives the keys it does not find in the
    session; [last_key_bits] is only set by the first page. *)
Definition initial_session : session :=
  mkSession None None [] [] [] [] None None None.

Definition set_keys (pub : public_key) (priv : private_key) (s : session)
  : session :=
  mkSession (Some pub) (Some priv)
            (ss_encrypted_text_msg s) (ss_original_text_msg s)
            (ss_decrypted_text_msg s) (ss_encrypted_image_data s)
            (ss_original_image_bytes s) (ss_original_image_type s)
            (ss_last_key_bits s).

Definition set_last_key_bits (bits : Z) (s : session) : session :=
  mkSession (ss_public_key s) (ss_private_key s)
            (ss_encrypted_text_msg s) (ss_original_text_msg s)
            (ss_decrypted_text_msg s) (ss_encrypted_image_data s)
            (ss_original_image_bytes s) (ss_original_image_type s)
            (Some bits).

Definition set_encrypted_text_msg (c : list Z) (s : session) : session :=
  mkSession (ss_public_key s) (ss_private_key s)
            c (ss_original_text_msg s)
            (ss_decrypted_text_msg s) (ss_encrypted_image_data s)
            (ss_original_image_bytes s) (ss_original_image_type s)
            (ss_last_key_bits s).

Definition set_original_text_msg (m : list Z) (s : session) : session :=
  mkSession (ss_public_key s) (ss_private_key s)
            (ss_encrypted_text_msg s) m
            (ss_decrypted_text_msg s) (ss_encrypted_image_data s)
            (ss_original_image_bytes s) (ss_original_image_type s)
            (ss_last_key_bits s).

Definition set_decrypted_text_msg (m : list Z) (s : session) : session :=
  mkSession (ss_public_key s) (ss_private_key s)
            (ss_encrypted_text_msg s) (ss_original_text_msg s)
            m (ss_encrypted_image_data s)
            (ss_original_image_bytes s) (ss_original_image_type s)
            (ss_last_key_bits s).

Definition set_encrypted_image_data (c : list Z) (s : session) : session :=
  mkSession (ss_public_key s) (ss_private_key s)
            (ss_encrypted_text_msg s) (ss_original_text_msg s)
            (ss_decrypted_text_msg s) c
            (ss_original_image_bytes s) (ss_original_image_type s)
            (ss_last_key_bits s).

Definition set_original_image (b : option (list byte))
           (t : option String.string) (s : session) : session :=
  mkSession (ss_public_key s) (ss_private_key s)
            (ss_encrypted_text_msg s) (ss_original_text_msg s)
            (ss_decrypted_text_msg s) (ss_encrypted_image_data s)
            b t (ss_last_key_bits s).

(** The status messages of the pages. *)
Inductive ui_event : Type :=
| CoreError (e : st_error)   (* [st.error] inside [encrypt_text] or [decrypt_bytes] *)
| KeysGenerated              (* success: Keys generated successfully! *)
| KeepPrivateKeySecret       (* warning: Keep your private key secret! *)
| TextEncrypted              (* success: Text message encrypted successfully! *)
| TextEncryptionFailed       (* error: Encryption failed. Please check the error message above *)
| NoKeysOnTextEncrypt        (* warning, button pressed: Please generate keys ... first. *)
| NoKeysForTextEncryption    (* warning: Please generate keys ... to enable encryption. *)
| TextDecrypted              (* success: Text message decrypted successfully! *)
| TextVerified               (* success: Verification: Decryption Successful! *)
| TextMismatch               (* error: Verification: Decryption Failed! *)
| NoKeysOnTextDecrypt        (* warning, button pressed: Please generate keys first. *)
| NoTextOnDecrypt            (* warning, button pressed: No text message to decrypt. *)
| NoPrivateKeyForText        (* warning: Please generate keys in the 'Key Generation' section. *)
| NoEncryptedText            (* warning: Please encrypt a text message ... *)
| ImagePreviewFailed         (* error: Tidak dapat mempratinjau gambar. *)
| ImageEncrypted             (* success: Gambar berhasil dienkripsi! *)
| ImageEncryptionFailed      (* error: Enkripsi gambar gagal. *)
| NoKeysOnImageEncrypt       (* warning, button pressed: Mohon hasilkan kunci ... *)
| NoKeysForImageEncryption   (* warning: Mohon hasilkan kunci ... *)
| ImageDecrypted             (* success: Gambar berhasil didekripsi! *)
| ImageVerified              (* success: Verifikasi: Dekripsi Berhasil! *)
| ImageMismatch              (* error: Verifikasi: Dekripsi Gagal! *)
| ImageDisplayFailed         (* error: Tidak dapat menampilkan gambar yang didekripsi. *)
| ImageDecryptionFailed      (* error: Dekripsi gambar gagal. *)
| NoKeysOnImageDecrypt       (* warning, button pressed: Mohon hasilkan kunci terlebih dahulu. *)
| NoImageOnDecrypt           (* warning, button pressed: Tidak ada data gambar terenkripsi *)
| NoPrivateKeyForImage       (* warning: Mohon hasilkan kunci ... *)
| NoEncryptedImage.          (* warning: Mohon enkripsi gambar ... *)

(** Page 1, "Key Generation": [key_bits] is the slider value, [pressed]
    the value of the button. *)
Definition page_key_generation (fuel : nat) (key_bits : Z) (pressed : bool)
           (s : session) : M (session * list ui_event) :=
  let s := set_last_key_bits key_bits s in
  if pressed then
    kp <- generate_keypair fuel key_bits ;;
    let '(public, private) := kp in
    ret (set_keys public private s, [KeysGenerated; KeepPrivateKeySecret])
  else ret (s, []).

(** Page 2, "Text Encryption": [message_to_encrypt] is the content of the
    text area. *)
Definition page_text_encryption (message_to_encrypt : list Z)
           (pressed : bool) (s : session)
  : outcome (session * list ui_event) :=
  match ss_public_key s with
  | Some _ =>
      let s := set_original_text_msg message_to_encrypt s in
      if pressed then
        match ss_public_key s with
        | None => Ok (s, [NoKeysOnTextEncrypt])
        | Some pub =>
            obind (encrypt_text pub message_to_encrypt)
                  (fun '(encrypted_data, errors) =>
                     match encrypted_data with
                     | [] =>
                         Ok (s, map CoreError errors ++ [TextEncryptionFailed])
                     | _ :: _ =>
                         Ok (set_encrypted_text_msg encrypted_data s,
                             map CoreError errors ++ [TextEncrypted])
                     end)
        end
      else Ok (s, [])
  | None => Ok (s, [NoKeysForTextEncryption])
  end.

(** Page 3, "Text Decryption & Verification". *)
Definition page_text_decryption (pressed : bool) (s : session)
  : outcome (session * list ui_event) :=
  match ss_private_key s, ss_encrypted_text_msg s with
  | Some _, _ :: _ =>
      if pressed then
        match ss_private_key s, ss_encrypted_text_msg s with
        | None, _ => Ok (s, [NoKeysOnTextDecrypt])
        | Some _, [] => Ok (s, [NoTextOnDecrypt])
        | Some priv, _ :: _ =>
            obind (decrypt_text priv (ss_encrypted_text_msg s))
                  (fun decrypted_message =>
                     let s := set_decrypted_text_msg decrypted_message s in
                     Ok (s,
                         [TextDecrypted;
                          if list_eq_dec Z.eq_dec (ss_original_text_msg s)
                                         (ss_decrypted_text_msg s)
                          then TextVerified else TextMismatch]))
        end
      else Ok (s, [])
  | priv, cipher =>
      Ok (s,
          (match priv with None => [NoPrivateKeyForText] | Some _ => [] end)
          ++ (match cipher with [] => [NoEncryptedText] | _ :: _ => [] end))
  end.

(** The upload block of page 4: the session, the uploaded file as the
    following blocks see it, and the messages. *)
Definition image_upload (preview_ok : list byte -> bool)
           (uploaded : option (list byte * String.string)) (s : session)
  : session * option (list byte * String.string) * list ui_event :=
  match uploaded with
  | Some (image_bytes, mime) =>
      let s := set_original_image (Some image_bytes) (Some mime) s in
      if preview_ok image_bytes then (s, uploaded, [])
      else (set_original_image None None s, None, [ImagePreviewFailed])
  | None => (s, None, [])
  end.

(** The encryption block of page 4.  [uploaded_file] is still there only
    when the upload block has stored its bytes in the session, so that
    [image_bytes] below is [st.session_state.original_image_bytes]. *)
Definition image_encryption
           (uploaded_file : option (list byte * String.string))
           (pressed : bool) (s : session)
  : outcome (session * list ui_event) :=
  match uploaded_file, ss_public_key s with
  | Some (image_bytes, _), Some _ =>
      if pressed then
        match ss_public_key s with
        | None => Ok (s, [NoKeysOnImageEncrypt])
        | Some pub =>
            obind (encrypt_bytes pub image_bytes)
                  (fun encrypted_data_ints =>
                     match encrypted_data_ints with
                     | [] => Ok (s, [ImageEncryptionFailed])
                     | _ :: _ =>
                         Ok (set_encrypted_image_data encrypted_data_ints s,
                             [ImageEncrypted])
                     end)
        end
      else Ok (s, [])
  | None, _ => Ok (s, [])
  | Some _, None => Ok (s, [NoKeysForImageEncryption])
  end.

(** What the [try] block after a successful image decryption reports. *)
Definition image_verification
           (display_ok : list byte -> option String.string -> bool)
           (decrypted_image_bytes : list byte) (s : session)
  : list ui_event :=
  if display_ok decrypted_image_bytes (ss_original_image_type s) then
    match ss_original_image_bytes s with
    | Some original =>
        if list_eq_dec Byte.byte_eq_dec original decrypted_image_bytes
        then [ImageVerified]
        else [ImageMismatch]
    | None => [ImageMismatch; ImageDisplayFailed]
    end
  else [ImageDisplayFailed].

(** The decryption block of page 4; it stores nothing in the session. *)
Definition image_decryption
           (display_ok : list byte -> option String.string -> bool)
           (pressed : bool) (s : session) : outcome (list ui_event) :=
  match ss_private_key s, ss_encrypted_image_data s with
  | Some _, _ :: _ =>
      if pressed then
        match ss_private_key s, ss_encrypted_image_data s with
        | None, _ => Ok [NoKeysOnImageDecrypt]
        | Some _, [] => Ok [NoImageOnDecrypt]
        | Some priv, _ :: _ =>
            obind (decrypt_bytes priv (ss_encrypted_image_data s))
                  (fun '(decrypted_image_bytes, errors) =>
                     match decrypted_image_bytes with
                     | [] =>
                         Ok (map CoreError errors ++ [ImageDecryptionFailed])
                     | _ :: _ =>
                         Ok (map CoreError errors ++
                             ImageDecrypted ::
                             image_verification display_ok
                               decrypted_image_bytes s)
                     end)
        end
      else Ok []
  | priv, cipher =>
      Ok ((match priv with None => [NoPrivateKeyForImage] | Some _ => [] end)
          ++ (match cipher with [] => [NoEncryptedImage] | _ :: _ => [] end))
  end.

(** Page 4, "Image Encryption & Decryption".  [uploaded] is the uploaded
    file, if any, as the bytes [read()] returns and its MIME type;
    [preview_ok] tells whether [Image.open] and [st.image] accept the
    uploaded bytes, [display_ok] whether [st.image] accepts the decrypted
    ones. *)
Definition page_image (preview_ok : list byte -> bool)
           (display_ok : list byte -> option String.string -> bool)
           (uploaded : option (list byte * String.string))
           (pressed_encrypt pressed_decrypt : bool) (s : session)
  : outcome (session * list ui_event) :=
  let '(s, uploaded_file, ev_upload) := image_upload preview_ok uploaded s in
  obind (image_encryption uploaded_file pressed_encrypt s)
        (fun '(s, ev_encrypt) =>
           obind (image_decryption display_ok pressed_decrypt s)
                 (fun ev_decrypt =>
                    Ok (s, ev_upload ++ ev_encrypt ++ ev_decrypt))).

(** One run of the script: the page chosen in the sidebar, with the
    values its widgets return on that run. *)
Inductive interaction : Type :=
| KeyGeneration (key_bits : Z) (pressed : bool)
| TextEncryption (message_to_encrypt : list Z) (pressed : bool)
| TextDecryption (pressed : bool)
| ImageEncryptionDecryption
    (preview_ok : list byte -> bool)
    (display_ok : list byte -> option String.string -> bool)
    (uploaded : option (list byte * String.string))
    (pressed_encrypt pressed_decrypt : bool).

(** The [if page == ... elif ...] chain. *)
Definition script (fuel : nat) (page : interaction) (s : session)
  : M (session * list ui_event) :=
  match page with
  | KeyGeneration key_bits pressed =>
      page_key_generation fuel key_bits pressed s
  | TextEncryption message_to_encrypt pressed =>
      lift (page_text_encryption message_to_encrypt pressed s)
  | TextDecryption pressed => lift (page_text_decryption pressed s)
  | ImageEncryptionDecryption preview_ok display_ok uploaded
                              pressed_encrypt pressed_decrypt =>
      lift (page_image preview_ok display_ok uploaded pressed_encrypt
                       pressed_decrypt s)
  end.

(** Successive runs of the script on one session, each run starting from
    the session state the one before it left, as long as every run
    completes. *)
Fixpoint reruns (fuel : nat) (pages : list interaction) (s : session)
  : M session :=
  match pages with
  | [] => ret s
  | page :: rest =>
      x <- script fuel page s ;; reruns fuel rest (fst x)
  end.

(** * Notions used in the statements *)

(** [enough n a m]: [n] steps suffice for a Euclidean loop that is at
    the pair [(a, m)] with [0 <= m <= a]. *)
Definition enough (n : nat) (a m : Z) : Prop :=
  (m = 0 /\ (1 <= n)%nat) \/
  (0 < m /\ Z.log2 a + Z.log2 m + 2 <= Z.of_nat n).

(** What the loop keeps true of its four variables when it started from
    [(a0, m0, 1, 0)] with [gcd a0 m0 = 1]: the two Bezout relations, the
    alternating signs of [x] and [y] with the cross product [m0], and
    the bound on [x] that makes one addition of [m0] normalise it. *)
Definition bezout_inv (a0 m0 a m x y : Z) : Prop :=
  0 < a /\ 0 <= m /\ Z.gcd a m = 1 /\
  (exists u, x * a0 + u * m0 = a) /\
  (exists v, y * a0 + v * m0 = m) /\
  2 * Z.abs x <= m0 /\
  ((0 <= x /\ y <= 0 /\ x * m - y * a = m0) \/
   (x <= 0 /\ 0 <= y /\ y * a - x * m = m0)).

(** Trial division, to certify the primes used in examples. *)
Definition trial_division (n : Z) : bool :=
  (1 <? n) &&
  forallb (fun d => negb (n mod d =? 0))
          (map Z.of_nat (seq 2 (Z.to_nat n - 2))).

(** The inner loop of a round as a function: does one of [i] successive
    squarings of [x] reach [n - 1]? *)
Fixpoint sq_hit (i : nat) (x n : Z) : bool :=
  match i with
  | O => false
  | S i' =>
      let x' := x ^ 2 mod n in
      if x' =? n - 1 then true else sq_hit i' x' n
  end.

(** The verdict of one round on the base [a]. *)
Definition mr_trial (n d : Z) (s : nat) (a : Z) : bool :=
  let x := a ^ d mod n in
  if (x =? 1) || (x =? n - 1) then true else sq_hit (s - 1) x n.

(** The base that [randint(2, n - 2)] makes of cell [j] of the tape. *)
Definition base_at (n : Z) (t : nat -> Z) (j : nat) : Z :=
  2 + t j mod (n - 2 - 2 + 1).

(** The bases of [2..89] on which a round accepts the composite 91. *)
Definition strong_liars_91 : list Z :=
  [9; 10; 12; 16; 17; 22; 29; 38; 53; 62; 69; 74; 75; 79; 81; 82].

Definition is_liar_91 (a : Z) : bool := existsb (Z.eqb a) strong_liars_91.

(** What [generate_prime(half)] promises of its result. *)
Definition probable_prime (half p : Z) : Prop :=
  Z.odd p = true /\ 2 ^ (half - 1) <= p < 2 ^ half /\
  exists r0 r1, is_prime p default_k r0 = Ok (true, r1).

(** What [generate_keypair] promises of the pair it returns. *)
Definition keypair_shape (half : Z) (pub : public_key) (priv : private_key)
  : Prop :=
  exists p q e d,
    pub = (p * q, e) /\ priv = (p * q, d) /\ p <> q /\
    probable_prime half p /\ probable_prime half q /\
    2 <= e <= (p - 1) * (q - 1) - 1 /\
    gcd e ((p - 1) * (q - 1)) = 1 /\
    (e * d) mod ((p - 1) * (q - 1)) = 1 /\
    0 <= d < (p - 1) * (q - 1).

(** The draws that make [generate_keypair] return the key pair of two
    given primes: [p], five bases, [q], five bases, and the draw that
    [randint] turns into [e = phi - 1]. *)
Definition tape_for (p q : Z) : rng :=
  tape_of [p; 0; 0; 0; 0; 0; q; 0; 0; 0; 0; 0; (p - 1) * (q - 1) - 3].

(** One unit under the exponent [x] and the modulus [n]. *)
Definition modexp (n x u : Z) : Z := u ^ x mod n.

(** One decrypted value is a byte. *)
Definition is_byte_value (v : Z) : Prop := 0 <= v <= 255.

(** One value is a code point, so that [chr] accepts it. *)
Definition is_codepoint (v : Z) : Prop := 0 <= v < 0x110000.

(** The session holds a key pair that [generate_keypair] returned for at
    least 24 bits and whose modulus is the product of two primes. *)
Definition sound_keys (s : session) : Prop :=
  exists fuel bits r r' n e d p q,
    generate_keypair fuel bits r = Ok (((n, e), (n, d)), r') /\
    24 <= bits /\ Z.prime p /\ Z.prime q /\ n = p * q /\
    ss_public_key s = Some (n, e) /\ ss_private_key s = Some (n, d).

(** A session after a 24-bit key generation, for examples. *)
Definition key_session_24 : session :=
  set_keys (4235339, 4231223) (4235339, 4231223)
           (set_last_key_bits 24 initial_session).

(** The warnings of the checks that are made again once a button is
    pressed. *)
Definition repeated_check_warning (e : ui_event) : bool :=
  match e with
  | NoKeysOnTextEncrypt | NoKeysOnTextDecrypt | NoTextOnDecrypt
  | NoKeysOnImageEncrypt | NoKeysOnImageDecrypt | NoImageOnDecrypt => true
  | _ => false
  end.

(** What every run of the script keeps true of the session: the two
    keys are absent together or are the two halves of one result of
    [generate_keypair]; without keys no text and no ciphertext is stored;
    the image bytes and the image type are absent together. *)
Definition session_invariant (s : session) : Prop :=
  ((ss_public_key s = None /\ ss_private_key s = None) \/
   (exists fuel bits r r' pub priv,
      generate_keypair fuel bits r = Ok ((pub, priv), r') /\
      ss_public_key s = Some pub /\ ss_private_key s = Some priv)) /\
  (ss_public_key s = None ->
   ss_encrypted_text_msg s = [] /\ ss_original_text_msg s = [] /\
   ss_decrypted_text_msg s = [] /\ ss_encrypted_image_data s = []) /\
  (ss_original_image_bytes s = None <-> ss_original_image_type s = None).

(** Two MIME types, for examples. *)
Module Mime.
Import String.
Definition png : String.string := "image/png"%string.
End Mime.

(** The exception [chr] raises on a value that is no code point. *)
Definition chr_error (v : Z) : exn :=
  if (- 2 ^ 31 <=? v) && (v <? 2 ^ 31) then ValueError else OverflowError.

(** * Properties *)

(** ** Generic facts about outcomes and arithmetic *)

Lemma pow3_nonneg (a b c : Z) :
  c <> 0 -> 0 <= b -> pow3 a b c = Ok (a ^ b mod c).
Proof.
  intros Hc Hb. unfold pow3.
  destruct (Z.eqb_spec c 0) as [E | _]; [contradiction |].
  destruct (Z.ltb_spec b 0) as [L | _]; [lia |].
  now rewrite Zpow_mod_correct.
Qed.

Lemma log2_half (r a : Z) : 0 < r -> 2 * r <= a -> Z.log2 r + 1 <= Z.log2 a.
Proof.
  intros Hr Ha.
  pose proof (Z.log2_le_mono (2 * r) a Ha) as H.
  rewrite Z.log2_double in H by assumption. lia.
Qed.

Lemma Zgcd_step (a m : Z) : m <> 0 -> Z.gcd m (a mod m) = Z.gcd a m.
Proof.
  intros Hm. rewrite Z.gcd_comm, Z.gcd_mod by assumption. apply Z.gcd_comm.
Qed.

(** ** Fuel of the Euclidean loops *)

Lemma enough_pos (n : nat) (a m : Z) : enough n a m -> exists n', n = S n'.
Proof.
  intros [[_ H] | [_ H]].
  - destruct n; [lia | eauto].
  - pose proof (Z.log2_nonneg a). pose proof (Z.log2_nonneg m).
    destruct n; [lia | eauto].
Qed.

Lemma enough_step (n : nat) (a m : Z) :
  0 < m <= a -> enough (S n) a m -> enough n m (a mod m).
Proof.
  intros Hm [[E _] | [_ Hn]]; [lia |].
  pose proof (Z.mod_pos_bound a m ltac:(lia)) as Hr.
  pose proof (Z.log2_nonneg a). pose proof (Z.log2_nonneg m).
  destruct (Z.eq_dec (a mod m) 0) as [E0 | N0]; [left; lia | right].
  split; [lia |].
  assert (2 * (a mod m) <= a).
  { pose proof (Z.div_mod a m ltac:(lia)).
    assert (1 <= a / m) by (apply Z.div_le_lower_bound; lia).
    nia. }
  pose proof (log2_half (a mod m) a ltac:(lia) ltac:(lia)). lia.
Qed.

Lemma euclid_fuel_S (m : Z) :
  euclid_fuel m = S (Z.to_nat (2 * Z.log2 (Z.abs m)) + 2).
Proof. unfold euclid_fuel. lia. Qed.

Lemma enough_first (a m : Z) :
  0 < m -> enough (Z.to_nat (2 * Z.log2 (Z.abs m)) + 2) m (a mod m).
Proof.
  intros Hm.
  pose proof (Z.mod_pos_bound a m Hm) as Hr.
  pose proof (Z.log2_nonneg m) as Hl.
  rewrite Z.abs_eq by lia.
  destruct (Z.eq_dec (a mod m) 0) as [E0 | N0]; [left; lia | right].
  split; [lia |].
  pose proof (Z.log2_le_mono (a mod m) m ltac:(lia)). lia.
Qed.

(** ** The Euclidean loop of [gcd] *)

Section Gcd.

Lemma gcd_loop_ordered (n : nat) :
  forall a b, 0 <= b <= a -> enough n a b ->
    gcd_loop n a b = Some (Z.gcd a b).
Proof.
  induction n as [| n IH]; intros a b Hab Hfuel.
  - apply enough_pos in Hfuel. destruct Hfuel; discriminate.
  - cbn [gcd_loop]. destruct (Z.eqb_spec b 0) as [-> | Hb].
    + rewrite Z.gcd_0_r, Z.abs_eq by lia. reflexivity.
    + pose proof (Z.mod_pos_bound a b ltac:(lia)) as Hr.
      rewrite IH.
      * f_equal. apply Zgcd_step. lia.
      * lia.
      * apply enough_step; [lia | assumption].
Qed.

Lemma gcd_loop_opp (n : nat) :
  forall a b, gcd_loop n (- a) (- b) = option_map Z.opp (gcd_loop n a b).
Proof.
  induction n as [| n IH]; intros a b; cbn [gcd_loop]; [reflexivity |].
  destruct (Z.eqb_spec b 0) as [-> | Hb].
  - reflexivity.
  - destruct (Z.eqb_spec (- b) 0) as [E | _]; [lia |].
    rewrite Z.mod_opp_opp by assumption. apply IH.
Qed.

Lemma gcd_loop_pos (a b : Z) :
  0 < b -> gcd_loop (euclid_fuel b) a b = Some (Z.gcd a b).
Proof.
  intros Hb. rewrite euclid_fuel_S.
  cbn [gcd_loop]. destruct (Z.eqb_spec b 0) as [E | _]; [lia |].
  pose proof (Z.mod_pos_bound a b Hb) as Hr.
  rewrite gcd_loop_ordered.
  - f_equal. apply Zgcd_step. lia.
  - lia.
  - now apply enough_first.
Qed.

(** The fuel that [gcd] gives its loop is always enough: the model is
    total, as the [while b] loop is. *)
Lemma gcd_loop_total (a b : Z) :
  gcd_loop (euclid_fuel b) a b =
  Some (Z.sgn b * Z.gcd a b + (if b =? 0 then a else 0)).
Proof.
  destruct (Z.lt_trichotomy b 0) as [Hneg | [-> | Hpos]].
  - pose proof (gcd_loop_opp (euclid_fuel b) (- a) (- b)) as H.
    rewrite !Z.opp_involutive in H. rewrite H.
    replace (euclid_fuel b) with (euclid_fuel (- b))
      by (unfold euclid_fuel; now rewrite Z.abs_opp).
    rewrite gcd_loop_pos by lia. cbn [option_map]. f_equal.
    rewrite Z.gcd_opp_l, Z.gcd_opp_r, Z.sgn_neg by assumption.
    destruct (Z.eqb_spec b 0); lia.
  - reflexivity.
  - rewrite gcd_loop_pos by assumption. f_equal.
    rewrite Z.sgn_pos by assumption.
    destruct (Z.eqb_spec b 0); lia.
Qed.

Lemma gcd_nonneg_spec (a b : Z) : 0 <= a -> 0 <= b -> gcd a b = Z.gcd a b.
Proof.
  intros Ha Hb. unfold gcd. rewrite gcd_loop_total.
  destruct (Z.eqb_spec b 0) as [-> | Hnz].
  - rewrite Z.gcd_0_r, Z.abs_eq by assumption. cbn. lia.
  - rewrite Z.sgn_pos by lia. lia.
Qed.

Lemma gcd_0_r (a : Z) : gcd a 0 = a.
Proof. reflexivity. Qed.

End Gcd.

(** ** The extended Euclidean loop of [mod_inverse] *)

Section ModInverse.

Variables a0 m0 : Z.

Lemma bezout_inv_step (a m x y : Z) :
  1 < a -> bezout_inv a0 m0 a m x y ->
  0 < m /\ bezout_inv a0 m0 m (a mod m) y (x - a / m * y).
Proof.
  intros Ha (Hpos & Hm & Hg & [u Hu] & [v Hv] & Hx & Hs).
  assert (Hm0 : 0 < m).
  { destruct (Z.eq_dec m 0) as [-> | N]; [| lia].
    rewrite Z.gcd_0_r in Hg. lia. }
  split; [assumption |].
  pose proof (Z.mod_pos_bound a m Hm0) as Hr.
  pose proof (Z.div_mod a m ltac:(lia)) as Hdm.
  assert (Hq : 0 <= a / m) by (apply Z.div_pos; lia).
  unfold bezout_inv. repeat split.
  - assumption.
  - lia.
  - rewrite Zgcd_step by lia. assumption.
  - exists v. assumption.
  - exists (u - a / m * v). nia.
  - destruct Hs as [(H1 & H2 & H3) | (H1 & H2 & H3)]; nia.
  - destruct Hs as [(H1 & H2 & H3) | (H1 & H2 & H3)]; [right | left];
      repeat split; nia.
Qed.

Lemma mod_inverse_loop_coprime (n : nat) :
  forall a m x y,
    1 < m0 -> m <= a -> enough n a m -> bezout_inv a0 m0 a m x y ->
    exists x', mod_inverse_loop n a m x y = Ok x' /\
               2 * Z.abs x' <= m0 /\ (a0 * x') mod m0 = 1.
Proof.
  induction n as [| n IH]; intros a m x y Hm0 Hle Hfuel Hinv.
  - apply enough_pos in Hfuel. destruct Hfuel; discriminate.
  - cbn [mod_inverse_loop]. destruct (Z.ltb_spec 1 a) as [Ha | Ha].
    + destruct (bezout_inv_step a m x y Ha Hinv) as [Hm Hstep].
      destruct (Z.eqb_spec m 0) as [E | _]; [lia |].
      cbv zeta. pose proof (Z.mod_pos_bound a m Hm) as Hr.
      apply IH; try assumption; try lia.
      apply enough_step; [lia | assumption].
    + destruct Hinv as (Hpos & _ & _ & [u Hu] & _ & Hx & _).
      exists x. repeat split; [assumption |].
      assert (a = 1) by lia. subst a.
      replace (a0 * x) with (1 + (- u) * m0) by lia.
      rewrite Z.mod_add by lia. apply Z.mod_small. lia.
Qed.

Lemma mod_inverse_loop_raise (n : nat) :
  forall a m x y,
    0 <= m <= a -> 0 < a -> Z.gcd a m <> 1 -> enough n a m ->
    mod_inverse_loop n a m x y = Raise ZeroDivisionError.
Proof.
  induction n as [| n IH]; intros a m x y Hle Ha Hg Hfuel.
  - apply enough_pos in Hfuel. destruct Hfuel; discriminate.
  - cbn [mod_inverse_loop]. destruct (Z.ltb_spec 1 a) as [H1 | H1].
    + destruct (Z.eqb_spec m 0) as [E | N]; [reflexivity |].
      cbv zeta. pose proof (Z.mod_pos_bound a m ltac:(lia)) as Hr.
      apply IH; try lia.
      * rewrite Zgcd_step by lia. assumption.
      * apply enough_step; [lia | assumption].
    + assert (a = 1) by lia. subst a. rewrite Z.gcd_1_l in Hg. contradiction.
Qed.

Lemma mod_inverse_loop_terminates (n : nat) :
  forall a m x y,
    0 <= m <= a -> enough n a m -> mod_inverse_loop n a m x y <> Timeout.
Proof.
  induction n as [| n IH]; intros a m x y Hle Hfuel.
  - apply enough_pos in Hfuel. destruct Hfuel; discriminate.
  - cbn [mod_inverse_loop]. destruct (Z.ltb_spec 1 a) as [H1 | H1];
      [| discriminate].
    destruct (Z.eqb_spec m 0) as [E | N]; [discriminate |].
    cbv zeta. pose proof (Z.mod_pos_bound a m ltac:(lia)) as Hr.
    apply IH; [lia |]. apply enough_step; [lia | assumption].
Qed.

End ModInverse.

Lemma mod_inverse_m1 (a : Z) : mod_inverse a 1 = Ok 0.
Proof. reflexivity. Qed.

(** The model of [mod_inverse] never runs out of the fuel it gives its
    loop. *)
Lemma mod_inverse_total (a m : Z) : mod_inverse a m <> Timeout.
Proof.
  unfold mod_inverse. destruct (Z.eqb_spec m 1) as [_ | Hm1]; [discriminate |].
  assert (H : mod_inverse_loop (euclid_fuel m) a m 1 0 <> Timeout).
  { rewrite euclid_fuel_S. cbn [mod_inverse_loop].
    destruct (Z.ltb_spec 1 a) as [Ha | Ha]; [| discriminate].
    destruct (Z.eqb_spec m 0) as [E | N]; [discriminate |]. cbv zeta.
    destruct (Z.lt_ge_cases 0 m) as [Hpos | Hneg].
    - pose proof (Z.mod_pos_bound a m Hpos).
      apply mod_inverse_loop_terminates; [lia | now apply enough_first].
    - destruct (Z.to_nat (2 * Z.log2 (Z.abs m)) + 2)%nat eqn:En; [lia |].
      cbn [mod_inverse_loop].
      destruct (Z.ltb_spec 1 m) as [Hc | _]; [lia | discriminate]. }
  destruct (mod_inverse_loop (euclid_fuel m) a m 1 0) as [x | e |];
    cbn [obind]; try congruence.
  destruct (x <? 0); discriminate.
Qed.

Lemma mod_inverse_coprime (a m : Z) :
  0 <= a -> 1 < m -> Z.gcd a m = 1 ->
  exists r, mod_inverse a m = Ok r /\ 0 <= r < m /\ (a * r) mod m = 1.
Proof.
  intros Ha Hm Hg. unfold mod_inverse.
  destruct (Z.eqb_spec m 1) as [E | _]; [lia |].
  assert (H : exists x, mod_inverse_loop (euclid_fuel m) a m 1 0 = Ok x /\
                        2 * Z.abs x <= m /\ (a * x) mod m = 1).
  { rewrite euclid_fuel_S. cbn [mod_inverse_loop].
    destruct (Z.ltb_spec 1 a) as [H1 | H1].
    - destruct (Z.eqb_spec m 0) as [E | _]; [lia |]. cbv zeta.
      pose proof (Z.mod_pos_bound a m ltac:(lia)) as Hr.
      apply mod_inverse_loop_coprime; try lia.
      + apply enough_first. lia.
      + unfold bezout_inv. repeat split; try lia.
        * rewrite Zgcd_step by lia. assumption.
        * exists 1. lia.
        * exists (- (a / m)). pose proof (Z.div_mod a m ltac:(lia)). nia.
    - exists 1. repeat split; [lia |].
      assert (a = 1).
      { destruct (Z.eq_dec a 0) as [-> | N]; [| lia].
        rewrite Z.gcd_0_l in Hg. lia. }
      subst a. apply Z.mod_small. lia. }
  destruct H as (x & -> & Hx & Hax). cbn [obind].
  destruct (Z.ltb_spec x 0) as [Hneg | Hpos]; eexists; split;
    try reflexivity; split; try lia.
  replace (a * (x + m)) with (a * x + a * m) by lia.
  rewrite Z.mod_add by lia. assumption.
Qed.

Lemma mod_inverse_not_coprime (a m : Z) :
  1 < a -> 0 <= m -> Z.gcd a m <> 1 ->
  mod_inverse a m = Raise ZeroDivisionError.
Proof.
  intros Ha Hm Hg. unfold mod_inverse.
  destruct (Z.eqb_spec m 1) as [-> | _].
  { rewrite Z.gcd_1_r in Hg. contradiction. }
  rewrite euclid_fuel_S. cbn [mod_inverse_loop].
  destruct (Z.ltb_spec 1 a) as [_ | H1]; [| lia].
  destruct (Z.eqb_spec m 0) as [E | N]; [reflexivity |]. cbv zeta.
  pose proof (Z.mod_pos_bound a m ltac:(lia)) as Hr.
  rewrite mod_inverse_loop_raise; try lia.
  - reflexivity.
  - rewrite Zgcd_step by lia. assumption.
  - apply enough_first. lia.
Qed.

(** C7.  For all non-negative integers [a] and [b], [gcd(a, b)] equals
    [gcd(b, a)], and [gcd(a, 0)] is [a]. *)
Theorem gcd_comm_and_zero (a b : Z) :
  0 <= a -> 0 <= b -> gcd a b = gcd b a /\ gcd a 0 = a.
Proof.
  intros Ha Hb. split.
  - rewrite !gcd_nonneg_spec by assumption. apply Z.gcd_comm.
  - apply gcd_0_r.
Qed.

Lemma gcd_comm_and_zero_witness :
  0 <= 48 /\ 0 <= 18 /\ gcd 48 18 = 6 /\ gcd 18 48 = 6 /\ gcd 48 0 = 48.
Proof.
  pose proof (gcd_comm_and_zero 48 18 ltac:(lia) ltac:(lia)) as [H1 H2].
  repeat split; try lia; try reflexivity; exact H2.
Defined.
(** ** Miller-Rabin: what one trial computes *)

Lemma trial_division_prime (n : Z) : trial_division n = true -> Z.prime n.
Proof.
  unfold trial_division. rewrite andb_true_iff, forallb_forall.
  intros [Hn Hall]. apply Z.ltb_lt in Hn. split; [assumption |].
  intros d Hd Hdiv.
  assert (Hin : In d (map Z.of_nat (seq 2 (Z.to_nat n - 2)))).
  { apply in_map_iff. exists (Z.to_nat d). split; [lia |].
    apply in_seq. lia. }
  specialize (Hall d Hin). apply negb_true_iff in Hall.
  apply Z.eqb_neq in Hall. apply Hall.
  apply Z.mod_divide; [lia | assumption].
Qed.

Lemma base_at_range (n : Z) (t : nat -> Z) (j : nat) :
  4 <= n -> 2 <= base_at n t j <= n - 2.
Proof.
  intros Hn. unfold base_at.
  pose proof (Z.mod_pos_bound (t j) (n - 2 - 2 + 1) ltac:(lia)). lia.
Qed.

Lemma squarings_pure (n : Z) (i : nat) :
  n <> 0 -> forall x, squarings i x n = Ok (sq_hit i x n).
Proof.
  intros Hn. induction i as [| i IH]; intros x; cbn [squarings sq_hit].
  - reflexivity.
  - rewrite pow3_nonneg by lia. cbn [obind]. cbv zeta.
    destruct (x ^ 2 mod n =? n - 1); [reflexivity | apply IH].
Qed.

Section Trials.

Variables (n d : Z) (s : nat).
Hypothesis Hn : 4 <= n.
Hypothesis Hd : 0 <= d.

Lemma trials_spec (k : nat) :
  forall r, exists r',
    trials k n d s r =
      Ok (forallb (fun j => mr_trial n d s (base_at n (tape r) j))
                  (seq (pos r) k), r')
    /\ tape r' = tape r.
Proof.
  induction k as [| k IH]; intros r.
  - exists r. split; reflexivity.
  - cbn [trials seq forallb]. unfold bind at 1, randint.
    destruct (Z.ltb_spec (n - 2) 2) as [Hlt | _]; [lia |].
    unfold bind at 1, draw, ret. unfold bind at 1.
    rewrite pow3_nonneg by lia. cbn [lift].
    fold (base_at n (tape r) (pos r)).
    set (a := base_at n (tape r) (pos r)).
    set (r1 := mkRng (tape r) (S (pos r))).
    destruct (IH r1) as (r' & Hrun & Htape). cbn [tape pos r1] in Hrun, Htape.
    unfold mr_trial at 1. cbv zeta.
    destruct ((a ^ d mod n =? 1) || (a ^ d mod n =? n - 1)).
    + exists r'. split; [exact Hrun | exact Htape].
    + unfold bind. rewrite squarings_pure by lia. cbn [lift].
      destruct (sq_hit (s - 1) (a ^ d mod n) n).
      * exists r'. split; [exact Hrun | exact Htape].
      * exists r1. split; reflexivity.
Qed.

(** When every base of the range passes, so does the whole test. *)
Lemma trials_all_pass (k : nat) (r : rng) :
  (forall a, 2 <= a <= n - 2 -> mr_trial n d s a = true) ->
  exists r', trials k n d s r = Ok (true, r').
Proof.
  intros Hall. destruct (trials_spec k r) as (r' & Hrun & _).
  exists r'. rewrite Hrun. f_equal. f_equal.
  apply forallb_forall. intros j _. apply Hall. now apply base_at_range.
Qed.

(** When no base of the range passes, the first round rejects. *)
Lemma trials_none_pass (k : nat) (r : rng) :
  (forall a, 2 <= a <= n - 2 -> mr_trial n d s a = false) ->
  exists r', trials (S k) n d s r = Ok (false, r').
Proof.
  intros Hall. destruct (trials_spec (S k) r) as (r' & Hrun & _).
  exists r'. rewrite Hrun. f_equal. f_equal.
  cbn [seq forallb]. rewrite Hall by now apply base_at_range. reflexivity.
Qed.

End Trials.

(** ** Miller-Rabin: the decomposition [n - 1 = 2^s * d] *)

Lemma factor_twos_spec (p : positive) :
  forall s0 s d, factor_twos s0 p = (s, d) ->
    Zpos p * 2 ^ Z.of_nat s0 = Zpos d * 2 ^ Z.of_nat s /\
    (s0 <= s)%nat /\ Z.odd (Zpos d) = true.
Proof.
  induction p as [p IH | p IH |]; intros s0 s d H; cbn [factor_twos] in H.
  - inversion H; subst. repeat split; reflexivity || lia.
  - apply IH in H. destruct H as (H1 & H2 & H3). repeat split; try lia.
    + rewrite Nat2Z.inj_succ, Z.pow_succ_r in H1 by lia.
      rewrite <- H1. lia.
    + assumption.
  - inversion H; subst. repeat split; reflexivity || lia.
Qed.

(** For an odd [n > 3] the test is the trial loop on the odd part of
    [n - 1]. *)
Lemma is_prime_odd (n : Z) (k : nat) :
  3 < n -> n mod 2 = 1 ->
  exists s d,
    n - 1 = d * 2 ^ Z.of_nat s /\ (1 <= s)%nat /\ 0 < d /\
    is_prime n k = trials k n d s.
Proof.
  intros Hn Hodd. unfold is_prime.
  destruct (Z.leb_spec n 1) as [H | _]; [lia |].
  destruct (Z.eqb_spec n 4) as [-> | _]; [discriminate |]. cbn [orb].
  destruct (Z.leb_spec n 3) as [H | _]; [lia |].
  rewrite Hodd. cbn [Z.eqb].
  pose proof (Z.div_mod n 2 ltac:(lia)) as Hdm. rewrite Hodd in Hdm.
  destruct (n - 1) as [| p | p] eqn:Ep; try lia.
  destruct p as [p | p |];
    [exfalso; rewrite Pos2Z.inj_xI in Ep; lia | | exfalso; lia].
  destruct (factor_twos 0 p~0) as [s d] eqn:Ef.
  pose proof Ef as Hspec. cbn [factor_twos] in Hspec.
  apply factor_twos_spec in Hspec. destruct Hspec as (H1 & H2 & _).
  exists s, (Zpos d). repeat split; try lia.
Qed.

(** ** Miller-Rabin never rejects a prime *)

Section PrimePasses.

Variable n : Z.
Hypothesis Hprime : Z.prime n.

Lemma sqrt_one (x : Z) :
  0 <= x < n -> x ^ 2 mod n = 1 -> x = 1 \/ x = n - 1.
Proof.
  intros Hx Hsq. pose proof (Z.prime_ge_2 n Hprime) as Hn.
  assert (Hdiv : (n | (x - 1) * (x + 1))).
  { apply Z.mod_divide; [lia |].
    replace ((x - 1) * (x + 1)) with (x ^ 2 - 1) by ring.
    rewrite Zminus_mod, Hsq, (Z.mod_small 1 n) by lia. reflexivity. }
  apply Z.divide_prime_mul in Hdiv; [| assumption].
  destruct Hdiv as [Hd | Hd].
  - left. destruct (Z.eq_dec x 1) as [E | N]; [assumption |].
    destruct (Z.eq_dec x 0) as [-> | N0].
    + apply Z.divide_opp_r in Hd. cbn in Hd.
      apply Z.divide_1_r_nonneg in Hd; lia.
    + apply Z.divide_pos_le in Hd; lia.
  - right. apply Z.divide_pos_le in Hd; lia.
Qed.

Lemma sq_hit_chain (j : nat) :
  forall x, 0 <= x < n ->
    x ^ (2 ^ Z.of_nat (S j)) mod n = 1 -> x <> 1 -> x <> n - 1 ->
    sq_hit j x n = true.
Proof.
  pose proof (Z.prime_ge_2 n Hprime) as Hn.
  induction j as [| j IH]; intros x Hx Hpow H1 Hm1.
  - change (2 ^ Z.of_nat 1) with 2 in Hpow.
    destruct (sqrt_one x Hx Hpow); contradiction.
  - cbn [sq_hit]. cbv zeta.
    destruct (Z.eqb_spec (x ^ 2 mod n) (n - 1)) as [_ | Hne]; [reflexivity |].
    pose proof (Z.mod_pos_bound (x ^ 2) n ltac:(lia)) as Hr.
    assert (Hpow' : (x ^ 2 mod n) ^ (2 ^ Z.of_nat (S j)) mod n = 1).
    { rewrite Z.mod_pow_l, <- Z.pow_mul_r by lia.
      rewrite <- Hpow. f_equal. f_equal.
      rewrite (Nat2Z.inj_succ (S j)), Z.pow_succ_r by lia. reflexivity. }
    apply IH; try assumption.
    intros E. rewrite E in Hpow'.
    destruct (sqrt_one x Hx E); contradiction.
Qed.

Lemma prime_passes_trial (d : Z) (s : nat) (a : Z) :
  n - 1 = d * 2 ^ Z.of_nat s -> (1 <= s)%nat -> 0 < d ->
  2 <= a <= n - 2 -> mr_trial n d s a = true.
Proof.
  intros Hdec Hs Hd Ha. pose proof (Z.prime_ge_2 n Hprime) as Hn.
  unfold mr_trial. cbv zeta.
  pose proof (Z.mod_pos_bound (a ^ d) n ltac:(lia)) as Hr.
  destruct (Z.eqb_spec (a ^ d mod n) 1) as [_ | H1]; [reflexivity |].
  destruct (Z.eqb_spec (a ^ d mod n) (n - 1)) as [_ | Hm1]; [reflexivity |].
  cbn [orb]. destruct s as [| j]; [lia |].
  replace (S j - 1)%nat with j by lia.
  apply sq_hit_chain; try assumption.
  rewrite Z.mod_pow_l, <- Z.pow_mul_r, <- Hdec by lia.
  apply Z.fermat_nz; [assumption |].
  rewrite Z.mod_small by lia. lia.
Qed.

End PrimePasses.

Lemma prime_odd (n : Z) : Z.prime n -> 3 < n -> n mod 2 = 1.
Proof.
  intros [_ Hp] Hn. pose proof (Z.mod_pos_bound n 2 ltac:(lia)).
  destruct (Z.eq_dec (n mod 2) 0) as [E | N]; [| lia].
  exfalso. apply (Hp 2); [lia |]. apply Z.mod_divide; [lia | assumption].
Qed.

(** No false negatives: whatever bases are drawn, a prime is accepted. *)
Lemma is_prime_complete (n : Z) (k : nat) (r : rng) :
  Z.prime n -> exists r', is_prime n k r = Ok (true, r').
Proof.
  intros Hp. pose proof (Z.prime_ge_2 n Hp) as Hn.
  destruct (Z.le_gt_cases n 3) as [Hsmall | Hbig].
  - exists r. assert (Hn23 : n = 2 \/ n = 3) by lia.
    destruct Hn23 as [-> | ->]; reflexivity.
  - destruct (is_prime_odd n k Hbig (prime_odd n Hp Hbig))
      as (s & d & Hdec & Hs & Hd & ->).
    apply trials_all_pass; try lia.
    intros a Ha. now apply (prime_passes_trial n Hp d s a).
Qed.

(** ** Miller-Rabin on the fixtures *)

Lemma forallb_range (f : Z -> bool) (lo len : nat) :
  forallb f (map Z.of_nat (seq lo len)) = true ->
  forall a, Z.of_nat lo <= a < Z.of_nat (lo + len) -> f a = true.
Proof.
  intros Hall a Ha. rewrite forallb_forall in Hall. apply Hall.
  apply in_map_iff. exists (Z.to_nat a). split; [lia |].
  apply in_seq. lia.
Qed.

Lemma mr_trial_91 (a : Z) :
  2 <= a <= 89 -> mr_trial 91 45 1 a = is_liar_91 a.
Proof.
  intros Ha. apply eqb_prop.
  apply (forallb_range
           (fun a => Bool.eqb (mr_trial 91 45 1 a) (is_liar_91 a)) 2 88).
  - vm_compute. reflexivity.
  - lia.
Qed.

Lemma mr_trial_15 (a : Z) : 2 <= a <= 13 -> mr_trial 15 7 1 a = false.
Proof.
  intros Ha. apply negb_true_iff.
  apply (forallb_range (fun a => negb (mr_trial 15 7 1 a)) 2 12).
  - vm_compute. reflexivity.
  - lia.
Qed.

Lemma is_prime_15 (k : nat) (r : rng) :
  exists r', is_prime 15 (S k) r = Ok (false, r').
Proof.
  change (is_prime 15 (S k) r) with (trials (S k) 15 7 1 r).
  apply trials_none_pass; try lia. intros a Ha. apply mr_trial_15. lia.
Qed.

Lemma is_prime_91 (k : nat) (r : rng) :
  exists r',
    is_prime 91 k r =
      Ok (forallb (fun j => is_liar_91 (base_at 91 (tape r) j))
                  (seq (pos r) k), r').
Proof.
  change (is_prime 91 k r) with (trials k 91 45 1 r).
  destruct (trials_spec 91 45 1 ltac:(lia) ltac:(lia) k r) as (r' & Hrun & _).
  exists r'. rewrite Hrun. f_equal. f_equal. clear Hrun.
  induction (seq (pos r) k) as [| j l IH]; [reflexivity |].
  cbn [forallb]. rewrite IH, mr_trial_91; [reflexivity |].
  pose proof (base_at_range 91 (tape r) j ltac:(lia)). lia.
Qed.

Lemma is_prime_small (n : Z) (k : nat) (r : rng) :
  n <= 1 \/ n = 4 -> is_prime n k r = Ok (false, r).
Proof.
  intros H. unfold is_prime.
  destruct (Z.leb_spec n 1) as [_ | H1]; [reflexivity |].
  destruct (Z.eqb_spec n 4) as [_ | H4]; [reflexivity | lia].
Qed.

Lemma is_prime_even (n : Z) (k : nat) (r : rng) :
  2 < n -> n mod 2 = 0 -> is_prime n k r = Ok (false, r).
Proof.
  intros Hn Heven. unfold is_prime.
  destruct (Z.leb_spec n 1) as [H | _]; [lia |].
  destruct (Z.eqb_spec n 4) as [_ | H4]; [reflexivity |]. cbn [orb].
  destruct (Z.leb_spec n 3) as [H | _].
  - assert (n = 3) by lia. subst n. discriminate.
  - rewrite Heven. reflexivity.
Qed.

Lemma prime_97 : Z.prime 97.
Proof. apply trial_division_prime. vm_compute. reflexivity. Qed.

(** C5, as the specification has it, fails at 91 = 7 * 13: when the five
    draws of [randint(2, 89)] all give the base 9, every round accepts
    and [is_prime(91)] returns [True]. *)
Lemma is_prime_accepts_91 :
  91 = 7 * 13 /\
  exists r', is_prime 91 default_k (tape_of [7; 7; 7; 7; 7]) = Ok (true, r').
Proof.
  split; [reflexivity |]. eexists. vm_compute. reflexivity.
Qed.

(** C5, amended.  For every choice of the random bases, [is_prime]
    returns true for 2, 3 and 97 and false for 1, 4 and 15; it returns
    false for every [n <= 1], for 4 and for every even [n > 2], true for
    2 and 3, and true for every prime (no false negatives).  On 91 it
    returns false exactly when one of the five drawn bases is not one of
    the sixteen strong liars of 91. *)
Theorem is_prime_classification (r : rng) :
  (forall n, In n [2; 3; 97] ->
     exists r', is_prime n default_k r = Ok (true, r')) /\
  (forall n, In n [1; 4; 15] ->
     exists r', is_prime n default_k r = Ok (false, r')) /\
  (exists r',
     is_prime 91 default_k r =
       Ok (forallb (fun j => is_liar_91 (base_at 91 (tape r) j))
                   (seq (pos r) default_k), r')) /\
  (forall n, n <= 1 \/ n = 4 \/ (2 < n /\ n mod 2 = 0) ->
     is_prime n default_k r = Ok (false, r)) /\
  (forall n, n = 2 \/ n = 3 -> is_prime n default_k r = Ok (true, r)) /\
  (forall n, Z.prime n -> exists r', is_prime n default_k r = Ok (true, r')).
Proof.
  repeat split.
  - intros n Hin. apply is_prime_complete.
    cbn [In] in Hin.
    destruct Hin as [<- | [<- | [<- | []]]];
      [apply Z.prime_2 | apply Z.prime_3 | apply prime_97].
  - intros n Hin. cbn [In] in Hin.
    destruct Hin as [<- | [<- | [<- | []]]].
    + exists r. reflexivity.
    + exists r. reflexivity.
    + apply is_prime_15.
  - apply is_prime_91.
  - intros n [H | [H | [H1 H2]]].
    + apply is_prime_small. now left.
    + apply is_prime_small. now right.
    + now apply is_prime_even.
  - intros n [-> | ->]; reflexivity.
  - intros n Hp. now apply is_prime_complete.
Qed.

Lemma is_prime_classification_witness :
  Z.prime 101 /\
  (exists r', is_prime 101 default_k (tape_of [3; 1; 4; 1; 5]) = Ok (true, r')) /\
  is_prime 10 default_k (tape_of []) = Ok (false, tape_of []) /\
  (exists r', is_prime 15 default_k (tape_of []) = Ok (false, r')).
Proof.
  assert (Hp : Z.prime 101) by (apply trial_division_prime; vm_compute; reflexivity).
  destruct (is_prime_classification (tape_of [3; 1; 4; 1; 5]))
    as (_ & _ & _ & _ & _ & Hprimes).
  destruct (is_prime_classification (tape_of []))
    as (_ & Hfalse & _ & Heven & _ & _).
  split; [exact Hp |]. split; [exact (Hprimes 101 Hp) |]. split.
  - apply Heven. right. right. split; [lia | reflexivity].
  - apply Hfalse. cbn [In]. auto.
Defined.

(** ** [mod_inverse] *)

(** C6, as the specification has it, fails twice: a negative [a] that is
    coprime to [m] gets a result that is no inverse, and an [a > 1] that
    is not coprime to [m] makes the loop divide by zero. *)
Lemma mod_inverse_claim_fails :
  (gcd (-1) 5 = 1 /\ mod_inverse (-1) 5 = Ok 1 /\ (-1 * 1) mod 5 = 4) /\
  (gcd 4 2 = 2 /\ mod_inverse 4 2 = Raise ZeroDivisionError).
Proof. repeat split; vm_compute; reflexivity. Qed.

(** C6, amended.  [mod_inverse(a, 1)] is 0 for every [a]; for every
    [a >= 0] and [m > 1] with [gcd(a, m) = 1] the result [r] satisfies
    [0 <= r < m] and [(a * r) mod m = 1]; and for [a > 1], [m >= 0] with
    [gcd(a, m) <> 1] the call raises [ZeroDivisionError]. *)
Theorem mod_inverse_correct (a m : Z) :
  mod_inverse a 1 = Ok 0 /\
  (0 <= a -> 1 < m -> gcd a m = 1 ->
   exists r, mod_inverse a m = Ok r /\ 0 <= r < m /\ (a * r) mod m = 1) /\
  (1 < a -> 0 <= m -> gcd a m <> 1 ->
   mod_inverse a m = Raise ZeroDivisionError).
Proof.
  split; [apply mod_inverse_m1 |]. split.
  - intros Ha Hm Hg. rewrite gcd_nonneg_spec in Hg by lia.
    now apply mod_inverse_coprime.
  - intros Ha Hm Hg. rewrite gcd_nonneg_spec in Hg by lia.
    now apply mod_inverse_not_coprime.
Qed.

Lemma mod_inverse_correct_witness :
  (exists r, mod_inverse 17 3120 = Ok r /\ 0 <= r < 3120 /\
             (17 * r) mod 3120 = 1) /\
  mod_inverse 6 9 = Raise ZeroDivisionError.
Proof.
  split.
  - destruct (mod_inverse_correct 17 3120) as (_ & H & _).
    apply H; [lia | lia | vm_compute; reflexivity].
  - destruct (mod_inverse_correct 6 9) as (_ & _ & H).
    apply H; [lia | lia | vm_compute; discriminate].
Defined.

(** ** Running the random-tape monad *)

Lemma bind_ok {A B} (m : M A) (k : A -> M B) (r r' : rng) (b : B) :
  bind m k r = Ok (b, r') ->
  exists a r1, m r = Ok (a, r1) /\ k a r1 = Ok (b, r').
Proof.
  unfold bind. destruct (m r) as [[a r1] | e |]; try discriminate.
  intros H. exists a, r1. split; [reflexivity | assumption].
Qed.

Lemma lift_ok {A} (o : outcome A) (r r' : rng) (a : A) :
  lift o r = Ok (a, r') -> o = Ok a /\ r' = r.
Proof.
  unfold lift. destruct o; try discriminate.
  intros H. inversion H. split; reflexivity.
Qed.

Lemma ret_ok {A} (a b : A) (r r' : rng) :
  ret a r = Ok (b, r') -> b = a /\ r' = r.
Proof. unfold ret. intros H. inversion H. split; reflexivity. Qed.

Lemma randint_ok (lo hi x : Z) (r r' : rng) :
  randint lo hi r = Ok (x, r') -> lo <= x <= hi.
Proof.
  unfold randint. destruct (Z.ltb_spec hi lo) as [H | H].
  - discriminate.
  - unfold bind, draw, ret. intros E. inversion E.
    pose proof (Z.mod_pos_bound (tape r (pos r)) (hi - lo + 1) ltac:(lia)).
    lia.
Qed.

Lemma getrandbits_ok (k x : Z) (r r' : rng) :
  getrandbits k r = Ok (x, r') -> 0 <= k /\ 0 <= x < 2 ^ k.
Proof.
  unfold getrandbits. destruct (Z.ltb_spec k 0) as [H | H].
  - discriminate.
  - unfold bind, draw, ret. intros E. inversion E. split; [assumption |].
    apply Z.mod_pos_bound. apply Z.pow_pos_nonneg; lia.
Qed.

Ltac run_bind H :=
  let a := fresh "a" in
  let r := fresh "r" in
  let Hm := fresh "Hm" in
  apply bind_ok in H; destruct H as (a & r & Hm & H).

(** ** [generate_prime] *)

(** Setting the top and the low bit of a [bits]-bit number. *)
Lemma candidate_shape (bits x : Z) :
  0 < bits -> 0 <= x < 2 ^ bits ->
  let p := Z.lor x (Z.lor (Z.shiftl 1 (bits - 1)) 1) in
  Z.odd p = true /\ 2 ^ (bits - 1) <= p < 2 ^ bits.
Proof.
  intros Hb Hx p.
  assert (Hmsb : Z.shiftl 1 (bits - 1) = 2 ^ (bits - 1))
    by (rewrite Z.shiftl_1_l; reflexivity).
  assert (Hpow : 0 < 2 ^ (bits - 1)) by (apply Z.pow_pos_nonneg; lia).
  assert (Hodd : Z.odd p = true).
  { unfold p. rewrite <- !Z.bit0_odd, !Z.lor_spec.
    change (Z.testbit 1 0) with true. now rewrite !orb_true_r. }
  split; [assumption |].
  assert (Hnn : 0 <= p).
  { unfold p. rewrite !Z.lor_nonneg. rewrite Hmsb. lia. }
  assert (Hp : 0 < p).
  { destruct (Z.eq_dec p 0) as [E | N]; [| lia].
    rewrite E in Hodd. discriminate. }
  assert (Hlog : Z.log2 p = bits - 1).
  { unfold p. rewrite !Z.log2_lor; try lia.
    - rewrite Hmsb, Z.log2_pow2 by lia. change (Z.log2 1) with 0.
      destruct (Z.eq_dec x 0) as [-> | N].
      + change (Z.log2 0) with 0. lia.
      + assert (Z.log2 x < bits) by (apply Z.log2_lt_pow2; lia).
        pose proof (Z.log2_nonneg x). lia.
    - rewrite Z.lor_nonneg, Hmsb. lia. }
  split.
  - apply Z.log2_le_pow2; lia.
  - apply Z.log2_lt_pow2; lia.
Qed.

Lemma generate_prime_ok (fuel : nat) (bits : Z) :
  forall r p r', generate_prime fuel bits r = Ok (p, r') ->
    0 < bits /\ Z.odd p = true /\ 2 ^ (bits - 1) <= p < 2 ^ bits /\
    exists r0 r1, is_prime p default_k r0 = Ok (true, r1).
Proof.
  induction fuel as [| fuel IH]; intros r p r' H; cbn [generate_prime] in H.
  - discriminate.
  - run_bind H. apply getrandbits_ok in Hm. destruct Hm as [Hk Hx].
    run_bind H. apply lift_ok in Hm. destruct Hm as [Hsh ->].
    unfold shiftl in Hsh. destruct (Z.ltb_spec (bits - 1) 0) as [Hneg | Hpos];
      [discriminate |].
    inversion Hsh; subst a0. clear Hsh.
    run_bind H. destruct a0.
    + apply ret_ok in H. destruct H as [-> ->].
      destruct (candidate_shape bits a ltac:(lia) Hx) as [Hodd Hrange].
      repeat split; try lia; try assumption. eauto.
    + now apply IH in H.
Qed.

(** C8.  For every positive bit length, whenever [generate_prime(bits)]
    returns, its result is odd, lies in [2^(bits-1), 2^bits) (bit length
    exactly [bits]) and was accepted by [is_prime]. *)
Theorem generate_prime_result (fuel : nat) (bits : Z) (r r' : rng) (p : Z) :
  0 < bits ->
  generate_prime fuel bits r = Ok (p, r') ->
  Z.odd p = true /\ 2 ^ (bits - 1) <= p < 2 ^ bits /\
  exists r0 r1, is_prime p default_k r0 = Ok (true, r1).
Proof.
  intros _ H. apply generate_prime_ok in H. tauto.
Qed.

Lemma generate_prime_result_witness :
  Z.odd 137 = true /\ 2 ^ (8 - 1) <= 137 < 2 ^ 8 /\
  exists r0 r1, is_prime 137 default_k r0 = Ok (true, r1).
Proof.
  eapply (generate_prime_result 3 8 (tape_of [0; 0; 8])).
  - lia.
  - vm_compute. reflexivity.
Defined.

(** ** [generate_keypair] *)

Lemma regenerate_q_ok (fuel0 : nat) (half p : Z) (fuel : nat) :
  forall q r q' r',
    regenerate_q fuel0 fuel half p q r = Ok (q', r') ->
    q' <> p /\ (q' = q \/ probable_prime half q').
Proof.
  induction fuel as [| fuel IH]; intros q r q' r' H; cbn [regenerate_q] in H;
    destruct (Z.eqb_spec p q) as [E | N]; cbn [negb] in H.
  - discriminate.
  - apply ret_ok in H. destruct H as [-> _]. split; [congruence | now left].
  - run_bind H. apply generate_prime_ok in Hm.
    apply IH in H. destruct H as [Hne [-> | Hgood]];
      (split; [assumption | right]); [| assumption].
    unfold probable_prime. tauto.
  - apply ret_ok in H. destruct H as [-> _]. split; [congruence | now left].
Qed.

Lemma choose_e_ok (phi : Z) (fuel : nat) :
  forall e r e' r',
    choose_e fuel phi e r = Ok (e', r') ->
    gcd e' phi = 1 /\ (e' = e \/ 2 <= e' <= phi - 1).
Proof.
  induction fuel as [| fuel IH]; intros e r e' r' H; cbn [choose_e] in H;
    destruct (Z.eqb_spec (gcd e phi) 1) as [E | N].
  - apply ret_ok in H. destruct H as [-> _]. split; [assumption | now left].
  - discriminate.
  - apply ret_ok in H. destruct H as [-> _]. split; [assumption | now left].
  - run_bind H. apply randint_ok in Hm. apply IH in H.
    destruct H as [Hg [-> | Hr]]; (split; [assumption | right]); assumption.
Qed.

Lemma generate_keypair_ok (fuel : nat) (bits : Z) (r r' : rng)
      (pub : public_key) (priv : private_key) :
  generate_keypair fuel bits r = Ok ((pub, priv), r') ->
  0 < bits / 2 /\ keypair_shape (bits / 2) pub priv.
Proof.
  unfold generate_keypair. intros H.
  run_bind H. rename a into p. apply generate_prime_ok in Hm.
  destruct Hm as (Hhalf & Hp).
  run_bind H. rename a into q0. apply generate_prime_ok in Hm.
  destruct Hm as (_ & Hq0).
  run_bind H. rename a into q. apply regenerate_q_ok in Hm.
  destruct Hm as (Hne & Hq).
  assert (Hq' : probable_prime (bits / 2) q).
  { destruct Hq as [-> | Hq]; [exact Hq0 | exact Hq]. }
  cbv zeta in H.
  run_bind H. rename a into e0. apply randint_ok in Hm.
  run_bind H. rename a into e. apply choose_e_ok in Hm0.
  destruct Hm0 as (Hg & He).
  assert (He' : 2 <= e <= (p - 1) * (q - 1) - 1).
  { destruct He as [-> | He]; assumption. }
  run_bind H. rename a into d. apply lift_ok in Hm0. destruct Hm0 as [Hd ->].
  apply ret_ok in H. destruct H as [H _]. inversion H; subst pub priv.
  split; [assumption |].
  destruct (mod_inverse_coprime e ((p - 1) * (q - 1)))
    as (d' & Hd' & Hrange & Hinv); try lia.
  { rewrite <- gcd_nonneg_spec by lia. assumption. }
  rewrite Hd in Hd'. inversion Hd'; subst d'.
  exists p, q, e, d.
  split; [reflexivity |]. split; [reflexivity |]. split; [congruence |].
  split; [exact Hp |]. split; [exact Hq' |]. split; [exact He' |].
  split; [exact Hg |]. split; [exact Hinv | exact Hrange].
Qed.

(** Prime generation for one or two bits has a single candidate. *)
Lemma candidate_1 (t : Z) :
  Z.lor (t mod 2 ^ 1) (Z.lor (Z.shiftl 1 (1 - 1)) 1) = 1.
Proof.
  pose proof (Z.mod_pos_bound t (2 ^ 1) ltac:(lia)) as H.
  assert (E : t mod 2 ^ 1 = 0 \/ t mod 2 ^ 1 = 1) by lia.
  destruct E as [-> | ->]; reflexivity.
Qed.

Lemma candidate_2 (t : Z) :
  Z.lor (t mod 2 ^ 2) (Z.lor (Z.shiftl 1 (2 - 1)) 1) = 3.
Proof.
  pose proof (Z.mod_pos_bound t (2 ^ 2) ltac:(lia)) as H.
  assert (E : t mod 2 ^ 2 = 0 \/ t mod 2 ^ 2 = 1 \/
              t mod 2 ^ 2 = 2 \/ t mod 2 ^ 2 = 3) by lia.
  destruct E as [-> | [-> | [-> | ->]]]; reflexivity.
Qed.

Lemma generate_prime_unfold (fuel : nat) (bits : Z) (r : rng) :
  0 < bits ->
  generate_prime (S fuel) bits r =
  let p := Z.lor (tape r (pos r) mod 2 ^ bits)
                 (Z.lor (Z.shiftl 1 (bits - 1)) 1) in
  bind (is_prime p default_k)
       (fun ok => if ok then ret p else generate_prime fuel bits)
       (mkRng (tape r) (S (pos r))).
Proof.
  intros Hb. cbn [generate_prime]. unfold bind at 1, getrandbits.
  destruct (Z.ltb_spec bits 0) as [H | _]; [lia |].
  unfold bind at 1, draw, ret at 1. unfold bind at 1, shiftl.
  destruct (Z.ltb_spec (bits - 1) 0) as [H | _]; [lia |].
  reflexivity.
Qed.

Lemma generate_prime_1_diverges (fuel : nat) :
  forall r, generate_prime fuel 1 r = Timeout.
Proof.
  induction fuel as [| fuel IH]; intros r; [reflexivity |].
  rewrite generate_prime_unfold by lia. cbv zeta.
  rewrite candidate_1. unfold bind. cbn. apply IH.
Qed.

Lemma generate_prime_2 (fuel : nat) (r : rng) :
  generate_prime (S fuel) 2 r = Ok (3, mkRng (tape r) (S (pos r))).
Proof.
  rewrite generate_prime_unfold by lia. cbv zeta.
  rewrite candidate_2. reflexivity.
Qed.

Lemma regenerate_q_2_diverges (fuel0 fuel : nat) :
  forall r, regenerate_q fuel0 fuel 2 3 3 r = Timeout.
Proof.
  induction fuel as [| fuel IH]; intros r; [reflexivity |].
  cbn [regenerate_q Z.eqb Pos.eqb negb]. unfold bind.
  destruct fuel0 as [| fuel0]; [reflexivity |].
  rewrite generate_prime_2. apply IH.
Qed.

Lemma generate_keypair_small_diverges (fuel : nat) (bits : Z) (r : rng) :
  2 <= bits <= 5 -> generate_keypair fuel bits r = Timeout.
Proof.
  intros Hb. unfold generate_keypair.
  assert (Hhalf : bits / 2 = 1 \/ bits / 2 = 2).
  { assert (1 <= bits / 2) by (apply Z.div_le_lower_bound; lia).
    assert (bits / 2 < 3) by (apply Z.div_lt_upper_bound; lia). lia. }
  destruct Hhalf as [-> | ->].
  - unfold bind at 1. now rewrite generate_prime_1_diverges.
  - destruct fuel as [| fuel]; [reflexivity |].
    unfold bind at 1. rewrite generate_prime_2.
    unfold bind at 1. rewrite generate_prime_2.
    unfold bind at 1. now rewrite regenerate_q_2_diverges.
Qed.

(** C2, as the specification has it, fails at the positive even bit
    length 4: both primes are drawn from the single two-bit candidate 3,
    so the loop that waits for [p != q] never ends and no key pair is
    returned, whatever the random draws. *)
Lemma generate_keypair_4_diverges :
  ~ exists (fuel : nat) (r : rng), generate_keypair fuel 4 r <> Timeout.
Proof.
  intros (fuel & r & H). apply H.
  apply generate_keypair_small_diverges. lia.
Qed.

(** ** Runs of [generate_keypair] that return *)

Lemma trials_all_pass_exact (n d : Z) (s : nat) :
  4 <= n -> 0 <= d ->
  (forall a, 2 <= a <= n - 2 -> mr_trial n d s a = true) ->
  forall k r, trials k n d s r = Ok (true, mkRng (tape r) (pos r + k)).
Proof.
  intros Hn Hd Hall. induction k as [| k IH]; intros r.
  - destruct r as [t i]. cbn. now rewrite Nat.add_0_r.
  - cbn [trials]. unfold bind at 1, randint.
    destruct (Z.ltb_spec (n - 2) 2) as [Hlt | _]; [lia |].
    unfold bind at 1, draw, ret. unfold bind at 1.
    rewrite pow3_nonneg by lia. cbn [lift].
    fold (base_at n (tape r) (pos r)).
    pose proof (Hall _ (base_at_range n (tape r) (pos r) Hn)) as Hpass.
    unfold mr_trial in Hpass. cbv zeta in Hpass.
    set (x := base_at n (tape r) (pos r) ^ d mod n) in *.
    assert (Hnext : trials k n d s (mkRng (tape r) (S (pos r))) =
                    Ok (true, mkRng (tape r) (pos r + S k))).
    { rewrite IH. cbn [tape pos]. now rewrite Nat.add_succ_r. }
    destruct ((x =? 1) || (x =? n - 1)); [exact Hnext |].
    unfold bind. rewrite squarings_pure by lia. cbn [lift].
    rewrite Hpass. exact Hnext.
Qed.

Lemma is_prime_prime_exact (n : Z) (k : nat) (r : rng) :
  Z.prime n -> 3 < n ->
  is_prime n k r = Ok (true, mkRng (tape r) (pos r + k)).
Proof.
  intros Hp Hn.
  destruct (is_prime_odd n k Hn (prime_odd n Hp Hn))
    as (s & d & Hdec & Hs & Hd & ->).
  apply trials_all_pass_exact; try lia.
  intros a Ha. now apply (prime_passes_trial n Hp d s a).
Qed.

(** An odd number of exactly [h] bits is left as it is by the forcing
    of the top and the low bit. *)
Lemma candidate_fixed (h p : Z) :
  0 < h -> Z.odd p = true -> 2 ^ (h - 1) <= p < 2 ^ h ->
  Z.lor (p mod 2 ^ h) (Z.lor (Z.shiftl 1 (h - 1)) 1) = p.
Proof.
  intros Hh Hodd Hp.
  assert (Hpow : 0 < 2 ^ (h - 1)) by (apply Z.pow_pos_nonneg; lia).
  rewrite Z.mod_small by lia. rewrite Z.shiftl_1_l.
  assert (Hlog : Z.log2 p = h - 1).
  { apply Z.log2_unique; [lia |].
    replace (Z.succ (h - 1)) with h by lia. assumption. }
  apply Z.bits_inj'. intros i Hi.
  rewrite !Z.lor_spec, Z.pow2_bits_eqb by lia.
  destruct (Z.eqb_spec (h - 1) i) as [E | N].
  - rewrite <- E, <- Hlog, Z.bit_log2 by lia. reflexivity.
  - destruct (Z.eq_dec i 0) as [-> | Ni].
    + rewrite Z.bit0_odd, Hodd. reflexivity.
    + change (Z.testbit 1 i) with (Z.testbit (2 ^ 0) i).
      rewrite Z.pow2_bits_eqb by lia.
      destruct (Z.eqb_spec 0 i) as [E0 | _]; [lia |].
      now rewrite !orb_false_r.
Qed.

Lemma generate_prime_hits (fuel : nat) (h p : Z) (r : rng) :
  Z.prime p -> 3 < p -> 2 ^ (h - 1) <= p < 2 ^ h -> 0 < h ->
  tape r (pos r) = p ->
  generate_prime (S fuel) h r = Ok (p, mkRng (tape r) (pos r + 6)).
Proof.
  intros Hp H3 Hrange Hh Hcell.
  rewrite generate_prime_unfold by assumption. cbv zeta.
  rewrite Hcell, candidate_fixed; try assumption.
  - unfold bind. rewrite is_prime_prime_exact by assumption.
    cbn [tape pos ret]. unfold ret, default_k. do 2 f_equal. f_equal. lia.
  - pose proof (prime_odd p Hp H3) as Hm. rewrite Zmod_odd in Hm.
    destruct (Z.odd p); [reflexivity | discriminate].
Qed.

Lemma gcd_pred (phi : Z) : 3 <= phi -> gcd (phi - 1) phi = 1.
Proof.
  intros H. rewrite gcd_nonneg_spec by lia.
  apply Z.bezout_1_gcd. exists (-1), 1. lia.
Qed.

Lemma generate_keypair_returns (fuel : nat) (bits p q : Z) :
  6 <= bits ->
  Z.prime p -> Z.prime q -> p <> q ->
  2 ^ (bits / 2 - 1) <= p < 2 ^ (bits / 2) ->
  2 ^ (bits / 2 - 1) <= q < 2 ^ (bits / 2) ->
  exists e d r',
    generate_keypair (S fuel) bits (tape_for p q) =
    Ok (((p * q, e), (p * q, d)), r').
Proof.
  intros Hbits Hp Hq Hne Hpr Hqr.
  assert (Hh : 3 <= bits / 2) by (apply Z.div_le_lower_bound; lia).
  assert (H4 : 2 ^ 2 <= 2 ^ (bits / 2 - 1))
    by (apply Z.pow_le_mono_r; lia).
  change (2 ^ 2) with 4 in H4.
  set (phi := (p - 1) * (q - 1)).
  assert (Hphi : 9 <= phi) by (unfold phi; nia).
  unfold generate_keypair.
  unfold bind at 1. rewrite (generate_prime_hits fuel (bits / 2) p);
    try assumption; try lia; [| reflexivity].
  unfold bind at 1. rewrite (generate_prime_hits fuel (bits / 2) q);
    try assumption; try lia; [| reflexivity].
  unfold bind at 1.
  assert (Hre : forall r, regenerate_q (S fuel) (S fuel) (bits / 2) p q r
                          = Ok (q, r)).
  { intros r. cbn [regenerate_q].
    destruct (Z.eqb_spec p q) as [E | _]; [contradiction | reflexivity]. }
  rewrite Hre. cbv zeta. fold phi.
  unfold bind at 1, randint.
  destruct (Z.ltb_spec (phi - 1) 2) as [Hlt | _]; [lia |].
  unfold bind at 1, draw, ret at 1. cbn [tape pos tape_for tape_of Nat.add nth].
  fold phi.
  replace (2 + (phi - 3) mod (phi - 1 - 2 + 1)) with (phi - 1)
    by (rewrite Z.mod_small by lia; lia).
  unfold bind at 1.
  assert (Hce : forall r, choose_e (S fuel) phi (phi - 1) r
                          = Ok (phi - 1, r)).
  { intros r. cbn [choose_e]. now rewrite gcd_pred, Z.eqb_refl by lia. }
  rewrite Hce.
  destruct (mod_inverse_coprime (phi - 1) phi) as (d & Hd & _); try lia.
  { rewrite <- gcd_nonneg_spec by lia. apply gcd_pred. lia. }
  unfold bind, lift. rewrite Hd. unfold ret. eauto.
Qed.

(** ** Textbook RSA on two primes *)

Section RsaCore.

Lemma fermat_power (p m j : Z) :
  Z.prime p -> 0 <= j -> m ^ (1 + j * (p - 1)) mod p = m mod p.
Proof.
  intros Hp Hj. pose proof (Z.prime_ge_2 p Hp) as H2.
  assert (Hexp : 0 <= j * (p - 1)) by nia.
  rewrite Z.pow_add_r, Z.pow_1_r by lia.
  destruct (Z.eq_dec (m mod p) 0) as [E0 | N0].
  - rewrite Z.mul_mod, E0 by lia. rewrite Z.mul_0_l, Z.mod_0_l by lia.
    reflexivity.
  - replace (j * (p - 1)) with ((p - 1) * j) by lia.
    rewrite Z.pow_mul_r by lia.
    rewrite Z.mul_mod, <- (Z.mod_pow_l (m ^ (p - 1))) by lia.
    rewrite Z.fermat_nz by assumption.
    rewrite Z.pow_1_l, (Z.mod_small 1 p), Z.mul_1_r, Z.mod_mod by lia.
    reflexivity.
Qed.

Lemma distinct_primes_coprime (p q : Z) :
  Z.prime p -> Z.prime q -> p <> q -> Z.gcd p q = 1.
Proof.
  intros Hp Hq Hne. apply Z.coprime_prime_l; [assumption |].
  intros Hdiv. apply Z.divide_prime_prime in Hdiv; assumption || contradiction.
Qed.

Lemma crt_divide (p q x : Z) :
  Z.gcd p q = 1 -> (p | x) -> (q | x) -> (p * q | x).
Proof.
  intros Hg [t Ht] Hq. subst x.
  assert (Hqt : (q | t)).
  { apply Z.gauss with (m := p); [now rewrite Z.mul_comm |].
    now rewrite Z.gcd_comm. }
  destruct Hqt as [u ->]. exists u. ring.
Qed.

Lemma mod_eq_divide (p x m : Z) : p <> 0 -> x mod p = m mod p -> (p | x - m).
Proof.
  intros Hp H. apply Z.mod_divide; [assumption |].
  rewrite Zminus_mod, H, Z.sub_diag. apply Z.mod_0_l. assumption.
Qed.

(** Decryption undoes encryption on every unit below [n]. *)
Lemma rsa_unit (p q e d m : Z) :
  Z.prime p -> Z.prime q -> p <> q ->
  0 <= e -> 0 <= d -> (e * d) mod ((p - 1) * (q - 1)) = 1 ->
  0 <= m < p * q ->
  (m ^ e mod (p * q)) ^ d mod (p * q) = m.
Proof.
  intros Hp Hq Hne He Hd Hed Hm.
  pose proof (Z.prime_ge_2 p Hp) as Hp2.
  pose proof (Z.prime_ge_2 q Hq) as Hq2.
  set (phi := (p - 1) * (q - 1)) in *.
  assert (Hphi : 0 < phi) by (unfold phi; nia).
  assert (Hn : 0 < p * q) by nia.
  rewrite Z.mod_pow_l, <- Z.pow_mul_r by lia.
  pose proof (Z.div_mod (e * d) phi ltac:(lia)) as Hdm. rewrite Hed in Hdm.
  set (k := e * d / phi) in *.
  assert (Hk : 0 <= k) by (unfold k; apply Z.div_pos; nia).
  assert (Hmodp : m ^ (e * d) mod p = m mod p).
  { replace (e * d) with (1 + k * (q - 1) * (p - 1)) by (unfold phi in Hdm; lia).
    apply fermat_power; [assumption | nia]. }
  assert (Hmodq : m ^ (e * d) mod q = m mod q).
  { replace (e * d) with (1 + k * (p - 1) * (q - 1)) by (unfold phi in Hdm; lia).
    apply fermat_power; [assumption | nia]. }
  apply mod_eq_divide in Hmodp; [| lia].
  apply mod_eq_divide in Hmodq; [| lia].
  pose proof (crt_divide p q _ (distinct_primes_coprime p q Hp Hq Hne)
                         Hmodp Hmodq) as Hdiv.
  apply Z.mod_divide in Hdiv; [| lia].
  rewrite <- (Z.mod_small m (p * q)) at 2 by lia.
  replace (m ^ (e * d)) with (m ^ (e * d) - m + m) by ring.
  rewrite Z.add_mod, Hdiv, Z.add_0_l, Z.mod_mod by lia. reflexivity.
Qed.

(** A product of two numbers above 1 that is a product of two primes is
    the product of these primes. *)
Lemma two_prime_factors (a b p q : Z) :
  1 < a -> 1 < b -> Z.prime p -> Z.prime q -> a * b = p * q ->
  (a = p /\ b = q) \/ (a = q /\ b = p).
Proof.
  intros Ha Hb Hp Hq Heq.
  pose proof (Z.prime_ge_2 p Hp) as Hp2.
  pose proof (Z.prime_ge_2 q Hq) as Hq2.
  assert (Hdiv : (p | a * b)) by (rewrite Heq; apply Z.divide_factor_l).
  apply Z.divide_prime_mul in Hdiv; [| assumption].
  destruct Hdiv as [[k Hk] | [k Hk]].
  - left. subst a.
    assert (Hkb : k * b = q) by nia.
    assert (Hbq : (b | q)) by (exists k; lia).
    apply Z.divide_prime_r in Hbq; [| assumption].
    assert (b = q) by lia. subst b. split; nia.
  - right. subst b.
    assert (Hka : a * k = q) by nia.
    assert (Haq : (a | q)) by (exists k; lia).
    apply Z.divide_prime_r in Haq; [| assumption].
    assert (a = q) by lia. subst a. split; nia.
Qed.

End RsaCore.

(** ** The block codecs, unit by unit *)

Section Codecs.

Variables n x : Z.

(** The exponent, [e] or [d], is not negative. *)
Hypothesis Hx : 0 <= x.

Lemma encrypt_text_loop_ok (text : list Z) :
  forall acc, Forall (fun u => 0 <= u < n) text ->
    encrypt_text_loop n x text acc = Ok (acc ++ map (modexp n x) text, []).
Proof.
  induction text as [| ch rest IH]; intros acc Hall; cbn [encrypt_text_loop map].
  - now rewrite app_nil_r.
  - inversion Hall as [| ? ? Hch Hrest]; subst. unfold ord.
    rewrite Z.geb_leb. destruct (Z.leb_spec n ch) as [H | _]; [lia |].
    rewrite pow3_nonneg by lia. cbn [obind].
    rewrite IH by assumption. now rewrite <- app_assoc.
Qed.

Lemma encrypt_text_loop_fail (text : list Z) :
  forall acc, Forall (fun u => 0 <= u) text -> Exists (fun u => n <= u) text ->
    exists u, In u text /\ n <= u /\
              encrypt_text_loop n x text acc = Ok ([], [UnitTooLarge u n]).
Proof.
  induction text as [| ch rest IH]; intros acc Hnn Hex; cbn [encrypt_text_loop].
  - inversion Hex.
  - inversion Hnn as [| ? ? Hch Hrest]; subst. unfold ord.
    rewrite Z.geb_leb. destruct (Z.leb_spec n ch) as [Hbig | Hsmall].
    + exists ch. split; [now left |]. split; [assumption | reflexivity].
    + rewrite pow3_nonneg by lia. cbn [obind].
      inversion Hex as [? ? Hhere | ? ? Hlater]; subst; [lia |].
      destruct (IH (acc ++ [ch ^ x mod n]) Hrest Hlater) as (u & Hin & Hu & Hrun).
      exists u. split; [now right |]. split; assumption.
Qed.

Lemma decrypt_text_loop_ok (cipher : list Z) :
  n <> 0 ->
  forall acc, Forall (fun c => 0 <= modexp n x c < 0x110000) cipher ->
    decrypt_text_loop n x cipher acc = Ok (acc ++ map (modexp n x) cipher).
Proof.
  intros Hn.
  induction cipher as [| c rest IH]; intros acc Hall;
    cbn [decrypt_text_loop map].
  - now rewrite app_nil_r.
  - inversion Hall as [| ? ? Hc Hrest]; subst.
    rewrite pow3_nonneg by assumption. cbn [obind]. unfold chr.
    fold (modexp n x c).
    destruct (Z.leb_spec 0 (modexp n x c)) as [_ | H]; [| lia].
    destruct (Z.ltb_spec (modexp n x c) 0x110000) as [_ | H]; [| lia].
    cbn [andb obind]. rewrite IH by assumption. now rewrite <- app_assoc.
Qed.

Lemma encrypt_bytes_loop_ok (data : list byte) :
  n <> 0 ->
  forall acc,
    encrypt_bytes_loop n x data acc =
    Ok (acc ++ map (fun b => modexp n x (byte_val b)) data).
Proof.
  intros Hn.
  induction data as [| b rest IH]; intros acc; cbn [encrypt_bytes_loop map].
  - now rewrite app_nil_r.
  - rewrite pow3_nonneg by assumption. cbn [obind].
    rewrite IH. now rewrite <- app_assoc.
Qed.

End Codecs.

Lemma byte_val_range (b : byte) : 0 <= byte_val b <= 255.
Proof. unfold byte_val. pose proof (Byte.to_N_bounded b). lia. Qed.

Lemma to_byte_ok (v : Z) :
  0 <= v <= 255 -> exists b, to_byte v = Ok b /\ byte_val b = v.
Proof.
  intros Hv. unfold to_byte.
  destruct (Z.leb_spec 0 v) as [_ | H]; [| lia].
  destruct (Z.leb_spec v 255) as [_ | H]; [| lia]. cbn [andb].
  destruct (Byte.of_N (Z.to_N v)) as [b |] eqn:E.
  - exists b. split; [reflexivity |]. apply Byte.to_of_N in E.
    unfold byte_val. rewrite E. lia.
  - apply Byte.of_N_None_iff in E. lia.
Qed.

Lemma to_byte_byte_val (b : byte) : to_byte (byte_val b) = Ok b.
Proof.
  destruct (to_byte_ok (byte_val b) (byte_val_range b)) as (b' & -> & Hb').
  f_equal. unfold byte_val in Hb'. apply N2Z.inj in Hb'.
  pose proof (Byte.of_to_N b) as H1. pose proof (Byte.of_to_N b') as H2.
  congruence.
Qed.

Lemma is_byte_value_dec (v : Z) : {is_byte_value v} + {~ is_byte_value v}.
Proof.
  unfold is_byte_value.
  destruct (Z_le_dec 0 v); destruct (Z_le_dec v 255); (left; lia) || (right; lia).
Qed.

Lemma decrypt_bytes_loop_spec (n d : Z) (cipher : list Z) :
  n <> 0 -> 0 <= d ->
  forall acc, exists out log,
    decrypt_bytes_loop n d cipher acc = Ok (out, log) /\
    (log <> [] <-> Exists (fun c => ~ is_byte_value (modexp n d c)) cipher) /\
    (log <> [] ->
       out = [] /\
       exists v, log = [InvalidByteValue v] /\ ~ is_byte_value v /\
                 In v (map (modexp n d) cipher)) /\
    (log = [] ->
       exists bs, out = acc ++ bs /\
                  map byte_val bs = map (modexp n d) cipher).
Proof.
  intros Hn Hd.
  induction cipher as [| c rest IH]; intros acc; cbn [decrypt_bytes_loop].
  - exists acc, []. split; [reflexivity |]. split; [| split].
    + split; [congruence | intros H; inversion H].
    + congruence.
    + intros _. exists []. split; [now rewrite app_nil_r | reflexivity].
  - rewrite pow3_nonneg by assumption. cbn [obind]. fold (modexp n d c).
    destruct (is_byte_value_dec (modexp n d c)) as [Hgood | Hbad].
    + unfold is_byte_value in Hgood.
      destruct (Z.leb_spec 0 (modexp n d c)) as [_ | H]; [| lia].
      destruct (Z.leb_spec (modexp n d c) 255) as [_ | H]; [| lia].
      cbn [andb negb].
      destruct (to_byte_ok (modexp n d c) Hgood) as (b & -> & Hb).
      cbn [obind].
      destruct (IH (acc ++ [b])) as (out & log & Hrun & Hiff & Hfail & Hsucc).
      exists out, log. split; [assumption |]. split; [| split].
      * rewrite Hiff. split; [now right |].
        intros H. inversion H; subst; [| assumption].
        unfold is_byte_value in *. lia.
      * intros Hlog. destruct (Hfail Hlog) as (-> & v & Hv & Hnb & Hin).
        split; [reflexivity |]. exists v. cbn [map In]. tauto.
      * intros Hlog. destruct (Hsucc Hlog) as (bs & -> & Hmap).
        exists (b :: bs). cbn [map]. rewrite <- app_assoc, Hb, Hmap.
        split; reflexivity.
    + assert (Hguard : negb ((0 <=? modexp n d c) && (modexp n d c <=? 255))
                       = true).
      { unfold is_byte_value in Hbad. apply negb_true_iff.
        destruct (Z.leb_spec 0 (modexp n d c));
          destruct (Z.leb_spec (modexp n d c) 255); reflexivity || lia. }
      rewrite Hguard.
      exists [], [InvalidByteValue (modexp n d c)].
      split; [reflexivity |]. split; [| split].
      * split; [intros _; now left | congruence].
      * intros _. split; [reflexivity |]. eexists. split; [reflexivity |].
        split; [assumption | now left].
      * congruence.
Qed.

(** Decrypting what was encrypted, when every unit survives [modexp]
    twice. *)
Lemma decrypt_text_of_encrypted (n e d : Z) (text : list Z) :
  n <> 0 -> 0 <= d ->
  Forall (fun u => 0 <= u < 0x110000 /\ modexp n d (modexp n e u) = u) text ->
  forall acc,
    decrypt_text_loop n d (map (modexp n e) text) acc = Ok (acc ++ text).
Proof.
  intros Hn Hd Hall acc.
  rewrite decrypt_text_loop_ok; try assumption.
  - f_equal. f_equal. rewrite map_map.
    rewrite <- (map_id text) at 2. apply map_ext_in.
    intros u Hu. rewrite Forall_forall in Hall. now apply Hall.
  - rewrite Forall_map. eapply Forall_impl; [| exact Hall].
    cbv beta. intros u [Hu ->]. exact Hu.
Qed.

Lemma decrypt_bytes_of_encrypted (n e d : Z) (data : list byte) :
  n <> 0 -> 0 <= d ->
  Forall (fun b => modexp n d (modexp n e (byte_val b)) = byte_val b) data ->
  forall acc,
    decrypt_bytes_loop n d (map (fun b => modexp n e (byte_val b)) data) acc
    = Ok (acc ++ data, []).
Proof.
  intros Hn Hd.
  induction data as [| b rest IH]; intros Hall acc;
    cbn [map decrypt_bytes_loop].
  - now rewrite app_nil_r.
  - inversion Hall as [| ? ? Hb Hrest]; subst.
    rewrite pow3_nonneg by assumption. cbn [obind].
    fold (modexp n d (modexp n e (byte_val b))). rewrite Hb.
    pose proof (byte_val_range b) as Hr.
    destruct (Z.leb_spec 0 (byte_val b)) as [_ | H]; [| lia].
    destruct (Z.leb_spec (byte_val b) 255) as [_ | H]; [| lia].
    cbn [andb negb]. rewrite to_byte_byte_val. cbn [obind].
    rewrite IH by assumption. now rewrite <- app_assoc.
Qed.

(** ** Key pairs and round trips *)

(** C2, amended.  Whenever [generate_keypair(bits)] returns, for any
    bit length, the result is [((n, e), (n, d))] with [n = p * q] for two
    distinct values [p <> q], each accepted by [is_prime] and of exactly
    [bits // 2] bits, and with [phi = (p - 1) * (q - 1)],
    [2 <= e <= phi - 1], [gcd(e, phi) = 1] and [(e * d) mod phi = 1].
    For the bit lengths 2 to 5 the call never returns; from 6 bits on it
    returns, on suitable random draws, the key pair of any two distinct
    primes of [bits // 2] bits. *)
Theorem generate_keypair_spec (bits : Z) :
  (forall fuel r r' pub priv,
     generate_keypair fuel bits r = Ok ((pub, priv), r') ->
     keypair_shape (bits / 2) pub priv) /\
  (2 <= bits <= 5 ->
   forall fuel r, generate_keypair fuel bits r = Timeout) /\
  (6 <= bits ->
   forall p q,
     Z.prime p -> Z.prime q -> p <> q ->
     2 ^ (bits / 2 - 1) <= p < 2 ^ (bits / 2) ->
     2 ^ (bits / 2 - 1) <= q < 2 ^ (bits / 2) ->
     exists fuel r e d r',
       generate_keypair fuel bits r = Ok (((p * q, e), (p * q, d)), r')).
Proof.
  split; [| split].
  - intros fuel r r' pub priv H. now apply generate_keypair_ok in H.
  - intros Hb fuel r. now apply generate_keypair_small_diverges.
  - intros Hb p q Hp Hq Hne Hpr Hqr.
    destruct (generate_keypair_returns 0 bits p q Hb Hp Hq Hne Hpr Hqr)
      as (e & d & r' & Hrun).
    exists 1%nat, (tape_for p q), e, d, r'. exact Hrun.
Qed.

Lemma generate_keypair_spec_witness :
  keypair_shape (16 / 2) (17947, 17679) (17947, 17679) /\
  generate_keypair 7 4 (tape_of [1; 2; 3]) = Timeout /\
  exists fuel r e d r',
    generate_keypair fuel 16 r = Ok (((137 * 131, e), (137 * 131, d)), r').
Proof.
  destruct (generate_keypair_spec 16) as (Hshape & _ & Hlive).
  destruct (generate_keypair_spec 4) as (_ & Hdiv & _).
  split; [| split].
  - eapply (Hshape 1%nat (tape_for 137 131)). vm_compute. reflexivity.
  - apply Hdiv. lia.
  - apply Hlive; try lia.
    + apply trial_division_prime. vm_compute. reflexivity.
    + apply trial_division_prime. vm_compute. reflexivity.
    + change (16 / 2) with 8. lia.
    + change (16 / 2) with 8. lia.
Defined.

(** The arithmetic of a returned key pair whose modulus is a product of
    two primes. *)
Lemma keypair_shape_primes (half : Z) (n e n' d p q : Z) :
  keypair_shape half (n, e) (n', d) ->
  Z.prime p -> Z.prime q -> n = p * q ->
  n' = n /\ p <> q /\ 0 <= e /\ 0 <= d /\
  forall m, 0 <= m < n -> (m ^ e mod n) ^ d mod n = m.
Proof.
  intros (p0 & q0 & e0 & d0 & Hpub & Hpriv & Hne & Hp0 & Hq0 & He & _ &
          Hed & Hd) Hp Hq Hn.
  injection Hpub as Hn1 He1. injection Hpriv as Hn2 Hd1. subst e0 d0.
  destruct Hp0 as (_ & Hp0r & _). destruct Hq0 as (_ & Hq0r & _).
  pose proof (Z.pow_nonneg 2 (half - 1) ltac:(lia)) as Hpow.
  assert (Hp1 : 1 < p0) by nia.
  assert (Hq1 : 1 < q0) by nia.
  assert (Hfac : p0 * q0 = p * q) by congruence.
  split; [congruence |].
  destruct (two_prime_factors p0 q0 p q Hp1 Hq1 Hp Hq Hfac)
    as [[E1 E2] | [E1 E2]]; subst p0 q0.
  - split; [assumption |]. split; [lia |]. split; [lia |].
    intros m Hm. rewrite Hn in *. apply rsa_unit; try assumption; lia.
  - split; [congruence |]. split; [lia |]. split; [lia |].
    intros m Hm. rewrite Hn in *.
    apply rsa_unit; try assumption; try lia; try congruence.
    replace ((p - 1) * (q - 1)) with ((q - 1) * (p - 1)) by ring.
    assumption.
Qed.

(** C1, as the specification has it, fails on a key pair that
    [generate_keypair(16)] returns when the five bases drawn for the
    candidate 221 = 13 * 17 are all its strong liar 174: the pair is
    ((28951, 3), (28951, 19067)), the unit 2 encrypts to 8, and 8
    decrypts to 8910. *)
Lemma round_trip_fails_on_pseudoprime :
  exists r',
    generate_keypair 1 16
      (tape_of [221; 172; 172; 172; 172; 172; 131; 0; 0; 0; 0; 0; 1])
    = Ok (((28951, 3), (28951, 19067)), r') /\
    28951 = 221 * 131 /\ 221 = 13 * 17 /\
    encrypt_text (28951, 3) [2] = Ok ([8], []) /\
    decrypt_text (28951, 19067) [8] = Ok [8910] /\
    encrypt_bytes (28951, 3) ["002"%byte] = Ok [8] /\
    decrypt_bytes (28951, 19067) [8] = Ok ([], [InvalidByteValue 8910]).
Proof.
  eexists. split; [vm_compute; reflexivity |].
  repeat split; vm_compute; reflexivity.
Qed.

(** C1, amended.  For every key pair [((n, e), (n, d))] returned by
    [generate_keypair] whose modulus [n] is the product of two primes
    (the two probable primes are prime indeed), and every message all of
    whose units are non-negative and below [n], decrypting the
    encryption returns exactly the original message, in the same order,
    on the text path and on the byte path. *)
Theorem rsa_round_trip (fuel : nat) (bits : Z) (r r' : rng)
        (n e n' d p q : Z) :
  generate_keypair fuel bits r = Ok (((n, e), (n', d)), r') ->
  Z.prime p -> Z.prime q -> n = p * q ->
  (forall text,
     Forall (fun u => 0 <= u < 0x110000 /\ u < n) text ->
     exists cipher,
       encrypt_text (n, e) text = Ok (cipher, []) /\
       decrypt_text (n', d) cipher = Ok text) /\
  (forall data,
     Forall (fun b => byte_val b < n) data ->
     exists cipher,
       encrypt_bytes (n, e) data = Ok cipher /\
       decrypt_bytes (n', d) cipher = Ok (data, [])).
Proof.
  intros Hrun Hp Hq Hn. apply generate_keypair_ok in Hrun.
  destruct Hrun as [_ Hshape].
  destruct (keypair_shape_primes _ _ _ _ _ _ _ Hshape Hp Hq Hn)
    as (-> & Hne & He & Hd & Hrt).
  pose proof (Z.prime_ge_2 p Hp). pose proof (Z.prime_ge_2 q Hq).
  assert (Hn0 : n <> 0) by nia.
  split.
  - intros text Hall. exists (map (modexp n e) text). split.
    + cbn [encrypt_text]. apply (encrypt_text_loop_ok n e He text []).
      eapply Forall_impl; [| exact Hall]. cbv beta. lia.
    + cbn [decrypt_text].
      apply (decrypt_text_of_encrypted n e d text Hn0 Hd).
      eapply Forall_impl; [| exact Hall]. cbv beta.
      intros u Hu. split; [lia |]. apply Hrt. lia.
  - intros data Hall.
    exists (map (fun b => modexp n e (byte_val b)) data). split.
    + cbn [encrypt_bytes]. apply (encrypt_bytes_loop_ok n e He data Hn0 []).
    + cbn [decrypt_bytes].
      apply (decrypt_bytes_of_encrypted n e d data Hn0 Hd).
      eapply Forall_impl; [| exact Hall]. cbv beta.
      intros b Hb. apply Hrt. pose proof (byte_val_range b). lia.
Qed.

Lemma rsa_round_trip_witness :
  (exists cipher,
     encrypt_text (17947, 17679) [72; 105; 8364] = Ok (cipher, []) /\
     decrypt_text (17947, 17679) cipher = Ok [72; 105; 8364]) /\
  (exists cipher,
     encrypt_bytes (17947, 17679) ["000"; "255"; "137"]%byte = Ok cipher /\
     decrypt_bytes (17947, 17679) cipher
     = Ok (["000"; "255"; "137"]%byte, [])).
Proof.
  assert (Hrun : generate_keypair 1 16 (tape_for 137 131)
                 = Ok (((17947, 17679), (17947, 17679)),
                       mkRng (tape (tape_for 137 131)) 13))
    by (vm_compute; reflexivity).
  assert (Hp : Z.prime 137) by (apply trial_division_prime; vm_compute; reflexivity).
  assert (Hq : Z.prime 131) by (apply trial_division_prime; vm_compute; reflexivity).
  destruct (rsa_round_trip 1 16 _ _ 17947 17679 17947 17679 137 131
                           Hrun Hp Hq eq_refl) as [Htext Hbytes].
  split.
  - apply Htext. repeat constructor; lia.
  - apply Hbytes. repeat constructor; vm_compute; reflexivity.
Defined.

(** ** Failure behaviour of the codecs *)

(** The text path does what the specification says of both paths: any
    unit that is not below [n] makes the call report [UnitTooLarge] and
    return the empty list. *)
Lemma encrypt_text_unit_too_large (n e : Z) (text : list Z) :
  0 <= e -> Forall (fun u => 0 <= u) text -> Exists (fun u => n <= u) text ->
  exists u, In u text /\ n <= u /\
            encrypt_text (n, e) text = Ok ([], [UnitTooLarge u n]).
Proof.
  intros He Hnn Hex. cbn [encrypt_text].
  now apply encrypt_text_loop_fail.
Qed.

(** The byte path has no such check: it answers with ciphertext for
    every input. *)
Lemma encrypt_bytes_never_fails (n e : Z) (data : list byte) :
  n <> 0 -> 0 <= e ->
  encrypt_bytes (n, e) data
  = Ok (map (fun b => modexp n e (byte_val b)) data).
Proof.
  intros Hn He. cbn [encrypt_bytes].
  now rewrite encrypt_bytes_loop_ok.
Qed.

(** C3.  The byte path does not fail when a unit is not below [n]: under
    the key pair ((35, 5), (35, 5)) that [generate_keypair(6)] returns,
    the byte 200 is encrypted to 30 with no error, and 30 decrypts to
    the byte 25. *)
Theorem encrypt_bytes_accepts_large_unit :
  (exists r',
     generate_keypair 1 6 (tape_of [5; 0; 0; 0; 0; 0; 7; 0; 0; 0; 0; 0; 3])
     = Ok (((35, 5), (35, 5)), r')) /\
  35 <= byte_val "200"%byte /\
  encrypt_bytes (35, 5) ["200"%byte] = Ok [30] /\
  decrypt_bytes (35, 5) [30] = Ok (["025"%byte], []) /\
  encrypt_text (35, 5) [200] = Ok ([], [UnitTooLarge 200 35]).
Proof.
  split; [eexists; vm_compute; reflexivity |].
  repeat split; vm_compute; congruence.
Qed.

(** C4.  [decrypt_bytes(priv, cipher)], for a key with [n <> 0] and
    [d >= 0], reports [InvalidByteValue] if and only if some decrypted
    value [c^d mod n] lies outside [0, 255]; it then returns no byte at
    all; otherwise it returns exactly the decrypted byte values in input
    order. *)
Theorem decrypt_bytes_spec (n d : Z) (cipher : list Z) :
  n <> 0 -> 0 <= d ->
  exists out log,
    decrypt_bytes (n, d) cipher = Ok (out, log) /\
    (log <> [] <->
     Exists (fun c => ~ (0 <= c ^ d mod n <= 255)) cipher) /\
    (log <> [] ->
     out = [] /\
     exists v, log = [InvalidByteValue v] /\ ~ (0 <= v <= 255) /\
               In v (map (fun c => c ^ d mod n) cipher)) /\
    (log = [] ->
     map byte_val out = map (fun c => c ^ d mod n) cipher).
Proof.
  intros Hn Hd. cbn [decrypt_bytes].
  destruct (decrypt_bytes_loop_spec n d cipher Hn Hd [])
    as (out & log & Hrun & Hiff & Hfail & Hsucc).
  exists out, log. split; [assumption |]. split; [exact Hiff |].
  split; [exact Hfail |].
  intros Hlog. destruct (Hsucc Hlog) as (bs & -> & Hmap). exact Hmap.
Qed.

Lemma decrypt_bytes_spec_witness :
  decrypt_bytes (3233, 2753) [2790; 5] = Ok ([], [InvalidByteValue 385]) /\
  decrypt_bytes (3233, 2753) [2790; 524] = Ok (["A"; "B"]%byte, []) /\
  exists out log,
    decrypt_bytes (3233, 2753) [2790; 5] = Ok (out, log) /\
    (log <> [] <->
     Exists (fun c => ~ (0 <= c ^ 2753 mod 3233 <= 255)) [2790; 5]).
Proof.
  split; [vm_compute; reflexivity |]. split; [vm_compute; reflexivity |].
  destruct (decrypt_bytes_spec 3233 2753 [2790; 5] ltac:(lia) ltac:(lia))
    as (out & log & Hrun & Hiff & _).
  exists out, log. split; assumption.
Defined.

(** C9.  For every private key [(n, d)] that [generate_keypair] returns
    with [n > 0x110000] there is a ciphertext sequence with entries in
    [0, n) on which [decrypt_text] raises: [n - 1] decrypts to [n - 1],
    which [chr] rejects. *)
Theorem decrypt_text_not_total (fuel : nat) (bits : Z) (r r' : rng)
        (pub : public_key) (n d : Z) :
  generate_keypair fuel bits r = Ok ((pub, (n, d)), r') ->
  0x110000 < n ->
  exists cipher ex,
    Forall (fun c => 0 <= c < n) cipher /\
    decrypt_text (n, d) cipher = Raise ex.
Proof.
  intros Hrun Hbig. apply generate_keypair_ok in Hrun.
  destruct Hrun as (_ & p & q & e & d0 & _ & Hpriv & _ & Hp & Hq & He & _ &
                    Hed & Hd).
  injection Hpriv as Hn Hd0. subst d0.
  destruct Hp as (Hpodd & _). destruct Hq as (Hqodd & _).
  set (phi := (p - 1) * (q - 1)) in *.
  assert (Hphi_even : Z.even phi = true).
  { unfold phi. rewrite Z.even_mul, Z.even_sub, <- Z.negb_odd, Hpodd.
    reflexivity. }
  assert (Hdodd : Z.odd d = true).
  { pose proof (Z.div_mod (e * d) phi ltac:(lia)) as Hdm. rewrite Hed in Hdm.
    assert (Hodd : Z.odd (e * d) = true).
    { rewrite Hdm, Z.odd_add, Z.odd_mul, <- (Z.negb_even phi), Hphi_even.
      reflexivity. }
    rewrite Z.odd_mul in Hodd. now apply andb_true_iff in Hodd. }
  assert (Hpow : (n - 1) ^ d mod n = n - 1).
  { rewrite <- Z.mod_pow_l.
    replace ((n - 1) mod n) with ((- (1)) mod n)
      by (replace (n - 1) with (- (1) + 1 * n) by ring;
          now rewrite Z.mod_add by lia).
    rewrite Z.mod_pow_l, Z.pow_opp_odd, Z.pow_1_l by
      (try apply Z.odd_spec; assumption || lia).
    replace (- (1)) with (n - 1 + (-1) * n) by ring.
    rewrite Z.mod_add by lia. apply Z.mod_small. lia. }
  assert (Hchr : exists ex, chr (n - 1) = Raise ex).
  { unfold chr.
    destruct (Z.ltb_spec (n - 1) 0x110000) as [H | _]; [lia |].
    rewrite andb_false_r.
    destruct ((- 2 ^ 31 <=? n - 1) && (n - 1 <? 2 ^ 31)); eauto. }
  destruct Hchr as [ex Hex].
  exists [n - 1], ex. split.
  - repeat constructor; lia.
  - cbn [decrypt_text decrypt_text_loop].
    rewrite pow3_nonneg by lia. cbn [obind]. rewrite Hpow, Hex. reflexivity.
Qed.

Lemma decrypt_text_not_total_witness :
  0x110000 < 4235339 /\
  exists cipher ex,
    Forall (fun c => 0 <= c < 4235339) cipher /\
    decrypt_text (4235339, 4231223) cipher = Raise ex.
Proof.
  split; [reflexivity |].
  eapply (decrypt_text_not_total 1 24 (tape_for 2053 2063)).
  - vm_compute. reflexivity.
  - reflexivity.
Defined.

Lemma encrypt_text_loop_failure_value (n e : Z) (text : list Z) :
  forall acc out log,
    encrypt_text_loop n e text acc = Ok (out, log) -> log <> [] -> out = [].
Proof.
  induction text as [| ch rest IH]; intros acc out log H Hlog;
    cbn [encrypt_text_loop] in H; cbv zeta in H.
  - inversion H; subst. contradiction.
  - destruct (ord ch >=? n).
    + congruence.
    + destruct (pow3 (ord ch) e n) as [c | ex |]; cbn [obind] in H;
        try discriminate.
      eapply IH; eassumption.
Qed.

Lemma decrypt_bytes_loop_failure_value (n d : Z) (cipher : list Z) :
  forall acc out log,
    decrypt_bytes_loop n d cipher acc = Ok (out, log) -> log <> [] ->
    out = [].
Proof.
  induction cipher as [| c rest IH]; intros acc out log H Hlog;
    cbn [decrypt_bytes_loop] in H.
  - inversion H; subst. contradiction.
  - destruct (pow3 c d n) as [v | ex |]; cbn [obind] in H;
      try discriminate.
    destruct (negb ((0 <=? v) && (v <=? 255))).
    + congruence.
    + destruct (to_byte v) as [b | ex |]; cbn [obind] in H;
        try discriminate.
      eapply IH; eassumption.
Qed.

(** C10.  The value [encrypt_text] returns when it fails is the empty
    list, which is also what it returns for the empty string; the value
    [decrypt_bytes] returns when it fails is the empty byte string, which
    is also what it returns for the empty ciphertext: the return value
    alone does not tell a failure from an empty success. *)
Theorem failure_value_is_empty_success :
  (forall pub, encrypt_text pub [] = Ok ([], [])) /\
  (forall pub text out log,
     encrypt_text pub text = Ok (out, log) -> log <> [] -> out = []) /\
  (forall priv, decrypt_bytes priv [] = Ok ([], [])) /\
  (forall priv cipher out log,
     decrypt_bytes priv cipher = Ok (out, log) -> log <> [] -> out = []).
Proof.
  split; [| split; [| split]].
  - intros [n e]. reflexivity.
  - intros [n e] text out log. cbn [encrypt_text].
    apply encrypt_text_loop_failure_value.
  - intros [n d]. reflexivity.
  - intros [n d] cipher out log. cbn [decrypt_bytes].
    apply decrypt_bytes_loop_failure_value.
Qed.

Lemma failure_value_is_empty_success_witness :
  encrypt_text (3233, 17) [65; 4000] = Ok ([], [UnitTooLarge 4000 3233]) /\
  encrypt_text (3233, 17) [] = Ok ([], []) /\
  decrypt_bytes (3233, 2753) [5] = Ok ([], [InvalidByteValue 385]) /\
  decrypt_bytes (3233, 2753) [] = Ok ([], []) /\
  forall out log,
    encrypt_text (3233, 17) [65; 4000] = Ok (out, log) -> out = [].
Proof.
  destruct failure_value_is_empty_success as (H1 & H2 & H3 & H4).
  split; [vm_compute; reflexivity |]. split; [apply H1 |].
  split; [vm_compute; reflexivity |]. split; [apply H3 |].
  intros out log E. apply (H2 (3233, 17) [65; 4000] out log E).
  vm_compute in E. congruence.
Defined.

(** * Further properties of the number-theoretic functions *)

(** X1.  On non-negative arguments [gcd] returns the greatest common
    divisor: a non-negative number that divides both arguments and is
    divided by each of their common divisors. *)
Theorem gcd_greatest_common_divisor (a b : Z) :
  0 <= a -> 0 <= b ->
  0 <= gcd a b /\ (gcd a b | a) /\ (gcd a b | b) /\
  forall c, (c | a) -> (c | b) -> (c | gcd a b).
Proof.
  intros Ha Hb. rewrite gcd_nonneg_spec by assumption.
  split; [apply Z.gcd_nonneg |].
  split; [apply Z.gcd_divide_l |].
  split; [apply Z.gcd_divide_r |].
  intros c. apply Z.gcd_greatest.
Qed.

Lemma gcd_greatest_common_divisor_witness :
  0 <= gcd 3120 17 /\ (gcd 84 36 | 84) /\ (gcd 84 36 | 36) /\
  ((6 | 84) -> (6 | 36) -> (6 | gcd 84 36)).
Proof.
  destruct (gcd_greatest_common_divisor 84 36 ltac:(lia) ltac:(lia))
    as (_ & H2 & H3 & H4).
  destruct (gcd_greatest_common_divisor 3120 17 ltac:(lia) ltac:(lia))
    as (H1 & _).
  split; [exact H1 |]. split; [exact H2 |]. split; [exact H3 | apply H4].
Defined.

(** X2.  With a divisor [b <> 0] of either sign and any [a], [gcd(a, b)]
    is the greatest common divisor carrying the sign of [b]: it is
    negative whenever [b] is. *)
Theorem gcd_sign_of_divisor (a b : Z) :
  b <> 0 -> gcd a b = Z.sgn b * Z.gcd a b /\ (b < 0 -> gcd a b < 0).
Proof.
  intros Hb. unfold gcd. rewrite gcd_loop_total.
  destruct (Z.eqb_spec b 0) as [E | _]; [contradiction |].
  rewrite Z.add_0_r. split; [reflexivity |].
  intros Hneg. rewrite Z.sgn_neg by assumption.
  assert (0 < Z.gcd a b).
  { pose proof (Z.gcd_nonneg a b).
    destruct (Z.eq_dec (Z.gcd a b) 0) as [E | N]; [| lia].
    apply Z.gcd_eq_0_r in E. contradiction. }
  lia.
Qed.

Lemma gcd_sign_of_divisor_witness :
  gcd 6 (-4) = -2 /\ gcd (-6) 4 = 2 /\ gcd 6 (-4) < 0.
Proof.
  destruct (gcd_sign_of_divisor 6 (-4) ltac:(lia)) as [H1 H2].
  destruct (gcd_sign_of_divisor (-6) 4 ltac:(lia)) as [H3 _].
  split; [exact H1 |]. split; [exact H3 | apply H2; lia].
Defined.

Lemma inverse_coprime (a r m : Z) :
  1 < m -> (a * r) mod m = 1 -> Z.gcd r m = 1.
Proof.
  intros Hm H. apply Z.bezout_1_gcd.
  exists a, (- (a * r / m)).
  pose proof (Z.div_mod (a * r) m ltac:(lia)) as Hdm. rewrite H in Hdm. lia.
Qed.

Lemma inverse_unique (a r r' m : Z) :
  1 < m -> (a * r) mod m = 1 -> (r * r') mod m = 1 -> r' mod m = a mod m.
Proof.
  intros Hm H1 H2.
  assert (E1 : (r * r' * a) mod m = a mod m).
  { rewrite <- Z.mul_mod_idemp_l, H2 by lia. f_equal. lia. }
  assert (E2 : (r * r' * a) mod m = r' mod m).
  { replace (r * r' * a) with (r' * (a * r)) by ring.
    rewrite <- Z.mul_mod_idemp_r, H1 by lia. f_equal. lia. }
  congruence.
Qed.

(** X3.  [mod_inverse] undoes itself: for [a >= 0] coprime to [m > 1],
    the inverse of [mod_inverse(a, m)] modulo [m] is [a mod m]. *)
Theorem mod_inverse_involutive (a m r : Z) :
  0 <= a -> 1 < m -> gcd a m = 1 ->
  mod_inverse a m = Ok r -> mod_inverse r m = Ok (a mod m).
Proof.
  intros Ha Hm Hg Hr. rewrite gcd_nonneg_spec in Hg by lia.
  destruct (mod_inverse_coprime a m Ha Hm Hg) as (r0 & Hr0 & Hrange & Hinv).
  rewrite Hr in Hr0. injection Hr0 as <-.
  destruct (mod_inverse_coprime r m ltac:(lia) Hm
                                (inverse_coprime a r m Hm Hinv))
    as (r' & -> & Hrange' & Hinv').
  f_equal. rewrite <- (Z.mod_small r' m) by lia.
  now apply (inverse_unique a r r' m).
Qed.

Lemma mod_inverse_involutive_witness :
  mod_inverse 17 3120 = Ok 2753 /\ mod_inverse 2753 3120 = Ok (17 mod 3120).
Proof.
  assert (H : mod_inverse 17 3120 = Ok 2753) by (vm_compute; reflexivity).
  split; [exact H |].
  apply (mod_inverse_involutive 17 3120 2753);
    [lia | lia | vm_compute; reflexivity | exact H].
Defined.

(** ** What an accepting round of Miller-Rabin implies *)

Lemma pow_pow2_succ (x : Z) (j : nat) :
  x ^ (2 ^ Z.of_nat (S j)) = (x ^ 2) ^ (2 ^ Z.of_nat j).
Proof.
  rewrite Nat2Z.inj_succ, Z.pow_succ_r by lia.
  rewrite Z.pow_mul_r by (try apply Z.pow_nonneg; lia). reflexivity.
Qed.

Lemma minus_one_square (n : Z) : 2 < n -> (n - 1) ^ 2 mod n = 1.
Proof.
  intros Hn. replace ((n - 1) ^ 2) with (1 + (n - 2) * n) by ring.
  rewrite Z.mod_add by lia. apply Z.mod_small. lia.
Qed.

Lemma one_pow_mod (n e : Z) : 2 < n -> 0 <= e -> 1 ^ e mod n = 1.
Proof. intros Hn He. rewrite Z.pow_1_l by assumption. apply Z.mod_small. lia. Qed.

Lemma sq_hit_fermat (n : Z) (j : nat) :
  2 < n -> forall x, sq_hit j x n = true -> x ^ (2 ^ Z.of_nat (S j)) mod n = 1.
Proof.
  intros Hn. induction j as [| j IH]; intros x H; cbn [sq_hit] in H.
  - discriminate.
  - cbv zeta in H. rewrite pow_pow2_succ, <- Z.mod_pow_l.
    destruct (Z.eqb_spec (x ^ 2 mod n) (n - 1)) as [E | _].
    + rewrite E, pow_pow2_succ, <- Z.mod_pow_l, minus_one_square by lia.
      apply one_pow_mod; [lia | apply Z.pow_nonneg; lia].
    + now apply IH.
Qed.

Lemma mr_trial_fermat (n d : Z) (s : nat) (a : Z) :
  2 < n -> 0 <= d -> (1 <= s)%nat ->
  mr_trial n d s a = true -> a ^ (d * 2 ^ Z.of_nat s) mod n = 1.
Proof.
  intros Hn Hd Hs H. unfold mr_trial in H. cbv zeta in H.
  destruct s as [| j]; [lia |]. replace (S j - 1)%nat with j in H by lia.
  rewrite Z.pow_mul_r, <- Z.mod_pow_l by (try apply Z.pow_nonneg; lia).
  destruct (Z.eqb_spec (a ^ d mod n) 1) as [E | _].
  - rewrite E. apply one_pow_mod; [lia | apply Z.pow_nonneg; lia].
  - destruct (Z.eqb_spec (a ^ d mod n) (n - 1)) as [E | _]; cbn [orb] in H.
    + rewrite E, pow_pow2_succ, <- Z.mod_pow_l, minus_one_square by lia.
      apply one_pow_mod; [lia | apply Z.pow_nonneg; lia].
    + now apply sq_hit_fermat.
Qed.

(** X4.  When [is_prime] accepts an [n > 3], every base [a] it drew is a
    Fermat liar or [n] is prime: [a^(n-1) mod n = 1], and in particular
    [a] has no factor in common with [n]. *)
Theorem is_prime_accepts_only_fermat_bases (n : Z) (k : nat) (r r' : rng) :
  3 < n -> is_prime n k r = Ok (true, r') ->
  forall j, (pos r <= j < pos r + k)%nat ->
    base_at n (tape r) j ^ (n - 1) mod n = 1 /\
    Z.gcd (base_at n (tape r) j) n = 1.
Proof.
  intros Hn Hrun j Hj.
  assert (Hodd : n mod 2 = 1).
  { pose proof (Z.mod_pos_bound n 2 ltac:(lia)).
    destruct (Z.eq_dec (n mod 2) 0) as [E | N]; [| lia].
    rewrite is_prime_even in Hrun by (assumption || lia). discriminate. }
  destruct (is_prime_odd n k Hn Hodd) as (s & d & Hdec & Hs & Hd & Heq).
  rewrite Heq in Hrun.
  destruct (trials_spec n d s ltac:(lia) ltac:(lia) k r) as (r1 & Hspec & _).
  rewrite Hspec in Hrun. injection Hrun as Hall _.
  rewrite forallb_forall in Hall.
  assert (Hpass : mr_trial n d s (base_at n (tape r) j) = true).
  { apply Hall. apply in_seq. lia. }
  apply mr_trial_fermat in Hpass; try lia. rewrite <- Hdec in Hpass.
  split; [assumption |].
  apply Z.bezout_1_gcd.
  exists (base_at n (tape r) j ^ (n - 2)),
         (- (base_at n (tape r) j ^ (n - 1) / n)).
  pose proof (Z.div_mod (base_at n (tape r) j ^ (n - 1)) n ltac:(lia)) as Hdm.
  rewrite Hpass in Hdm.
  replace (n - 1) with (Z.succ (n - 2)) in Hdm at 1 by lia.
  rewrite Z.pow_succ_r in Hdm by lia. lia.
Qed.

Lemma is_prime_accepts_only_fermat_bases_witness :
  base_at 91 (tape (tape_of [7; 8; 10; 14; 15])) 1 = 10 /\
  10 ^ (91 - 1) mod 91 = 1 /\ Z.gcd 10 91 = 1.
Proof.
  split; [reflexivity |].
  eapply (is_prime_accepts_only_fermat_bases 91 5 (tape_of [7; 8; 10; 14; 15])
                                             _ ltac:(lia)) with (j := 1%nat).
  - vm_compute. reflexivity.
  - cbn. lia.
Defined.

(** ** Prime and key generation at the edges *)

Lemma generate_prime_nonpositive (fuel : nat) (bits : Z) (r : rng) :
  bits <= 0 -> generate_prime (S fuel) bits r = Raise ValueError.
Proof.
  intros Hb. cbn [generate_prime]. unfold bind at 1, getrandbits.
  destruct (Z.ltb_spec bits 0) as [Hneg | Hzero]; [reflexivity |].
  unfold bind at 1, draw, ret at 1. unfold bind at 1, shiftl.
  destruct (Z.ltb_spec (bits - 1) 0) as [_ | H]; [reflexivity | lia].
Qed.

(** X5.  A non-positive bit length is an error, not a loop:
    [generate_prime(bits)] raises [ValueError] for [bits <= 0], and so
    does [generate_keypair(bits)] for [bits <= 1]. *)
Theorem generation_rejects_tiny_bit_lengths (fuel : nat) (bits : Z) (r : rng) :
  (bits <= 0 -> generate_prime (S fuel) bits r = Raise ValueError) /\
  (bits <= 1 -> generate_keypair (S fuel) bits r = Raise ValueError).
Proof.
  split; [apply generate_prime_nonpositive |].
  intros Hb. unfold generate_keypair, bind at 1.
  rewrite generate_prime_nonpositive; [reflexivity |].
  apply Z.lt_succ_r. apply Z.div_lt_upper_bound; lia.
Qed.

Lemma generation_rejects_tiny_bit_lengths_witness :
  generate_prime 1 0 (tape_of [5]) = Raise ValueError /\
  generate_keypair 1 1 (tape_of [5]) = Raise ValueError /\
  generate_keypair 1 (-8) (tape_of [5]) = Raise ValueError.
Proof.
  destruct (generation_rejects_tiny_bit_lengths 0 0 (tape_of [5])) as [H1 _].
  destruct (generation_rejects_tiny_bit_lengths 0 1 (tape_of [5])) as [_ H2].
  destruct (generation_rejects_tiny_bit_lengths 0 (-8) (tape_of [5]))
    as [_ H3].
  split; [apply H1; lia |]. split; [apply H2; lia | apply H3; lia].
Defined.



Lemma odd_mul_odd (a b : Z) :
  Z.odd a = true -> Z.odd b = true -> Z.odd (a * b) = true.
Proof. intros Ha Hb. now rewrite Z.odd_mul, Ha, Hb. Qed.

Lemma keypair_totient_even (p q : Z) :
  Z.odd p = true -> Z.even ((p - 1) * (q - 1)) = true.
Proof.
  intros Hp. rewrite Z.even_mul, Z.even_sub, <- Z.negb_odd, Hp. reflexivity.
Qed.

Lemma inverse_pair_odd (e d phi : Z) :
  1 < phi -> Z.even phi = true -> (e * d) mod phi = 1 ->
  Z.odd e = true /\ Z.odd d = true.
Proof.
  intros Hphi Heven Hed.
  pose proof (Z.div_mod (e * d) phi ltac:(lia)) as Hdm. rewrite Hed in Hdm.
  assert (Hodd : Z.odd (e * d) = true).
  { rewrite Hdm, Z.odd_add, Z.odd_mul, <- (Z.negb_even phi), Heven.
    reflexivity. }
  rewrite Z.odd_mul in Hodd. now apply andb_true_iff in Hodd.
Qed.

Lemma keypair_modulus_bounds (fuel : nat) (bits : Z) (r r' : rng)
      (n e n' d : Z) :
  generate_keypair fuel bits r = Ok (((n, e), (n', d)), r') ->
  n' = n /\ Z.odd n = true /\
  2 ^ (2 * (bits / 2) - 2) < n < 2 ^ (2 * (bits / 2)).
Proof.
  intros Hrun. apply generate_keypair_ok in Hrun.
  destruct Hrun as (Hh & p & q & e0 & d0 & Hpub & Hpriv & Hne &
                    (Hpo & Hpr & _) & (Hqo & Hqr & _) & _).
  injection Hpub as -> _. injection Hpriv as -> _.
  set (h := bits / 2) in *.
  assert (Hlow : 0 < 2 ^ (h - 1)) by (apply Z.pow_pos_nonneg; lia).
  split; [reflexivity |]. split; [now apply odd_mul_odd |].
  replace (2 * h - 2) with ((h - 1) + (h - 1)) by lia.
  replace (2 * h) with (h + h) by lia.
  rewrite !Z.pow_add_r by lia. nia.
Qed.

(** X7.  The modulus of a returned key pair is odd and has [2h - 1] or
    [2h] bits, where [h = bits // 2]: [2^(2h-2) < n < 2^(2h)]; both keys
    carry the same modulus. *)
Theorem keypair_modulus_size (fuel : nat) (bits : Z) (r r' : rng)
        (n e n' d : Z) :
  generate_keypair fuel bits r = Ok (((n, e), (n', d)), r') ->
  n' = n /\ Z.odd n = true /\
  2 ^ (2 * (bits / 2) - 2) < n < 2 ^ (2 * (bits / 2)).
Proof. apply keypair_modulus_bounds. Qed.

Lemma keypair_modulus_size_witness :
  Z.odd 17947 = true /\ 2 ^ (2 * (16 / 2) - 2) < 17947 < 2 ^ (2 * (16 / 2)).
Proof.
  eapply (keypair_modulus_size 1 16 (tape_for 137 131)).
  vm_compute. reflexivity.
Defined.

(** X8.  In every returned key pair both exponents are odd, the public
    exponent is at least 3 and the private exponent at least 1. *)
Theorem keypair_exponents_odd (fuel : nat) (bits : Z) (r r' : rng)
        (n e n' d : Z) :
  generate_keypair fuel bits r = Ok (((n, e), (n', d)), r') ->
  Z.odd e = true /\ Z.odd d = true /\ 3 <= e /\ 1 <= d.
Proof.
  intros Hrun. apply generate_keypair_ok in Hrun.
  destruct Hrun as (_ & p & q & e0 & d0 & Hpub & Hpriv & _ &
                    (Hpo & _) & _ & He & _ & Hed & Hd).
  injection Hpub as _ ->. injection Hpriv as _ ->.
  destruct (inverse_pair_odd e0 d0 ((p - 1) * (q - 1)))
    as [Heo Hdo]; try assumption; try lia.
  { now apply keypair_totient_even. }
  split; [assumption |]. split; [assumption |].
  assert (e0 <> 2) by (intros ->; discriminate).
  assert (d0 <> 0) by (intros ->; discriminate).
  lia.
Qed.

Lemma keypair_exponents_odd_witness :
  Z.odd 3 = true /\ Z.odd 19067 = true /\ 3 <= 3 /\ 1 <= 19067.
Proof.
  eapply (keypair_exponents_odd 1 16
            (tape_of [221; 172; 172; 172; 172; 172; 131; 0; 0; 0; 0; 0; 1])
            _ 28951 3 28951 19067).
  vm_compute. reflexivity.
Defined.

(** * Further properties of the block codecs *)

(** ** What [encrypt_text] returns *)

Lemma encrypt_text_loop_first_large (n e : Z) (pre post : list Z) (u : Z) :
  0 <= e -> Forall (fun v => 0 <= v < n) pre -> n <= u ->
  forall acc,
    encrypt_text_loop n e (pre ++ u :: post) acc
    = Ok ([], [UnitTooLarge u n]).
Proof.
  intros He Hpre Hu.
  induction pre as [| v pre IH]; intros acc; cbn [app encrypt_text_loop].
  - unfold ord. rewrite Z.geb_leb.
    destruct (Z.leb_spec n u) as [_ | H]; [reflexivity | lia].
  - inversion Hpre as [| ? ? Hv Hrest]; subst. unfold ord.
    rewrite Z.geb_leb. destruct (Z.leb_spec n v) as [H | _]; [lia |].
    rewrite pow3_nonneg by lia. cbn [obind]. now apply IH.
Qed.

Lemma split_at_first_large (n : Z) (text : list Z) :
  Exists (fun u => n <= u) text ->
  exists pre u post,
    text = pre ++ u :: post /\ Forall (fun v => v < n) pre /\ n <= u.
Proof.
  induction text as [| v rest IH]; intros Hex.
  - inversion Hex.
  - destruct (Z_le_gt_dec n v) as [Hbig | Hsmall].
    + exists [], v, rest. repeat split; [constructor | assumption].
    + inversion Hex as [? ? Hhere | ? ? Hlater]; subst; [lia |].
      destruct (IH Hlater) as (pre & u & post & -> & Hpre & Hu).
      exists (v :: pre), u, post. repeat split; try assumption.
      constructor; [lia | assumption].
Qed.

(** X9.  [encrypt_text], for an exponent [e >= 0], reports
    [UnitTooLarge] if and only if some character code is not below [n];
    the error names the first such character and the value returned is
    the empty list; otherwise the value returned is, in order,
    [c^e mod n] for every character code [c]. *)
Theorem encrypt_text_spec (n e : Z) (text : list Z) :
  0 <= e -> Forall (fun u => 0 <= u) text ->
  exists out log,
    encrypt_text (n, e) text = Ok (out, log) /\
    (log <> [] <-> Exists (fun u => n <= u) text) /\
    (log <> [] ->
     out = [] /\
     exists pre u post,
       text = pre ++ u :: post /\ Forall (fun v => v < n) pre /\ n <= u /\
       log = [UnitTooLarge u n]) /\
    (log = [] -> out = map (fun u => u ^ e mod n) text).
Proof.
  intros He Hnn. cbn [encrypt_text].
  destruct (Exists_dec (fun u => n <= u) text (Z_le_dec n)) as [Hex | Hnone].
  - destruct (split_at_first_large n text Hex)
      as (pre & u & post & Htext & Hpre & Hu).
    exists [], [UnitTooLarge u n]. split.
    + rewrite Htext. apply encrypt_text_loop_first_large; try assumption.
      rewrite Htext in Hnn. apply Forall_app in Hnn. destruct Hnn as [Hnn _].
      rewrite Forall_forall in *. intros v Hv.
      specialize (Hnn v Hv). specialize (Hpre v Hv). cbv beta in *. lia.
    + split; [split; [intros _; assumption | congruence] |].
      split; [| congruence].
      intros _. split; [reflexivity |]. exists pre, u, post. auto.
  - exists (map (fun u => u ^ e mod n) text), []. split.
    + apply (encrypt_text_loop_ok n e He text []).
      rewrite Forall_forall in *. intros u Hu. split; [now apply Hnn |].
      destruct (Z_lt_le_dec u n) as [Hlt | Hge]; [assumption |].
      exfalso. apply Hnone. apply Exists_exists. eauto.
    + split; [split; [congruence | contradiction] |].
      split; [congruence | reflexivity].
Qed.

Lemma encrypt_text_spec_witness :
  exists out log,
    encrypt_text (3233, 17) [72; 105; 8364; 33] = Ok (out, log) /\
    (log <> [] <-> Exists (fun u => 3233 <= u) [72; 105; 8364; 33]).
Proof.
  destruct (encrypt_text_spec 3233 17 [72; 105; 8364; 33] ltac:(lia))
    as (out & log & Hrun & Hiff & _).
  - repeat constructor; lia.
  - exists out, log. split; assumption.
Defined.

(** ** Messages are encrypted unit by unit *)

Lemma encrypt_text_loop_shift (n e : Z) (text : list Z) :
  forall acc out pre,
    encrypt_text_loop n e text acc = Ok (out, []) ->
    encrypt_text_loop n e text (pre ++ acc) = Ok (pre ++ out, []).
Proof.
  induction text as [| ch rest IH]; intros acc out pre H;
    cbn [encrypt_text_loop] in *; cbv zeta in *.
  - injection H as <-. reflexivity.
  - destruct (ord ch >=? n); [discriminate |].
    destruct (pow3 (ord ch) e n) as [c | ex |]; cbn [obind] in *;
      try discriminate.
    rewrite <- app_assoc. now apply IH.
Qed.

Lemma encrypt_text_loop_app (n e : Z) (s1 s2 : list Z) :
  forall acc out,
    encrypt_text_loop n e s1 acc = Ok (out, []) ->
    encrypt_text_loop n e (s1 ++ s2) acc = encrypt_text_loop n e s2 out.
Proof.
  induction s1 as [| ch rest IH]; intros acc out H;
    cbn [app encrypt_text_loop] in *; cbv zeta in *.
  - injection H as <-. reflexivity.
  - destruct (ord ch >=? n); [discriminate |].
    destruct (pow3 (ord ch) e n) as [c | ex |]; cbn [obind] in *;
      try discriminate.
    now apply IH.
Qed.

Lemma decrypt_text_loop_shift (n d : Z) (cipher : list Z) :
  forall acc out pre,
    decrypt_text_loop n d cipher acc = Ok out ->
    decrypt_text_loop n d cipher (pre ++ acc) = Ok (pre ++ out).
Proof.
  induction cipher as [| c rest IH]; intros acc out pre H;
    cbn [decrypt_text_loop] in *.
  - injection H as <-. reflexivity.
  - destruct (pow3 c d n) as [v | ex |]; cbn [obind] in *; try discriminate.
    destruct (chr v) as [ch | ex |]; cbn [obind] in *; try discriminate.
    rewrite <- app_assoc. now apply IH.
Qed.

Lemma decrypt_text_loop_app (n d : Z) (c1 c2 : list Z) :
  forall acc out,
    decrypt_text_loop n d c1 acc = Ok out ->
    decrypt_text_loop n d (c1 ++ c2) acc = decrypt_text_loop n d c2 out.
Proof.
  induction c1 as [| c rest IH]; intros acc out H;
    cbn [app decrypt_text_loop] in *.
  - injection H as <-. reflexivity.
  - destruct (pow3 c d n) as [v | ex |]; cbn [obind] in *; try discriminate.
    destruct (chr v) as [ch | ex |]; cbn [obind] in *; try discriminate.
    now apply IH.
Qed.

(** X10.  The text path works unit by unit, with no chaining: when two
    strings encrypt without error, their concatenation encrypts to the
    concatenation of the two ciphertexts; and when two ciphertexts
    decrypt, their concatenation decrypts to the concatenation of the
    two strings. *)
Theorem text_codec_concatenation (pub : public_key) (priv : private_key)
        (s1 s2 c1 c2 : list Z) :
  (encrypt_text pub s1 = Ok (c1, []) -> encrypt_text pub s2 = Ok (c2, []) ->
   encrypt_text pub (s1 ++ s2) = Ok (c1 ++ c2, [])) /\
  (decrypt_text priv c1 = Ok s1 -> decrypt_text priv c2 = Ok s2 ->
   decrypt_text priv (c1 ++ c2) = Ok (s1 ++ s2)).
Proof.
  destruct pub as [n e]. destruct priv as [n' d].
  cbn [encrypt_text decrypt_text]. split; intros H1 H2.
  - rewrite (encrypt_text_loop_app n e s1 s2 [] c1 H1).
    rewrite <- (app_nil_r c1) at 1. now apply encrypt_text_loop_shift.
  - rewrite (decrypt_text_loop_app n' d c1 c2 [] s1 H1).
    rewrite <- (app_nil_r s1) at 1. now apply decrypt_text_loop_shift.
Qed.

Lemma text_codec_concatenation_witness :
  encrypt_text (3233, 17) ([65] ++ [66]) = Ok ([2790] ++ [524], []) /\
  decrypt_text (3233, 2753) ([2790] ++ [524]) = Ok ([65] ++ [66]).
Proof.
  destruct (text_codec_concatenation (3233, 17) (3233, 2753)
                                     [65] [66] [2790] [524]) as [H1 H2].
  split; [apply H1 | apply H2]; vm_compute; reflexivity.
Defined.

Lemma encrypt_bytes_loop_shift (n e : Z) (data : list byte) :
  forall acc out pre,
    encrypt_bytes_loop n e data acc = Ok out ->
    encrypt_bytes_loop n e data (pre ++ acc) = Ok (pre ++ out).
Proof.
  induction data as [| b rest IH]; intros acc out pre H;
    cbn [encrypt_bytes_loop] in *.
  - injection H as <-. reflexivity.
  - destruct (pow3 (byte_val b) e n) as [c | ex |]; cbn [obind] in *;
      try discriminate.
    rewrite <- app_assoc. now apply IH.
Qed.

Lemma encrypt_bytes_loop_app (n e : Z) (d1 d2 : list byte) :
  forall acc out,
    encrypt_bytes_loop n e d1 acc = Ok out ->
    encrypt_bytes_loop n e (d1 ++ d2) acc = encrypt_bytes_loop n e d2 out.
Proof.
  induction d1 as [| b rest IH]; intros acc out H;
    cbn [app encrypt_bytes_loop] in *.
  - injection H as <-. reflexivity.
  - destruct (pow3 (byte_val b) e n) as [c | ex |]; cbn [obind] in *;
      try discriminate.
    now apply IH.
Qed.

Lemma decrypt_bytes_loop_shift (n d : Z) (cipher : list Z) :
  forall acc out pre,
    decrypt_bytes_loop n d cipher acc = Ok (out, []) ->
    decrypt_bytes_loop n d cipher (pre ++ acc) = Ok (pre ++ out, []).
Proof.
  induction cipher as [| c rest IH]; intros acc out pre H;
    cbn [decrypt_bytes_loop] in *.
  - injection H as <-. reflexivity.
  - destruct (pow3 c d n) as [v | ex |]; cbn [obind] in *; try discriminate.
    destruct (negb ((0 <=? v) && (v <=? 255))); [discriminate |].
    destruct (to_byte v) as [b | ex |]; cbn [obind] in *; try discriminate.
    rewrite <- app_assoc. now apply IH.
Qed.

Lemma decrypt_bytes_loop_app (n d : Z) (c1 c2 : list Z) :
  forall acc out,
    decrypt_bytes_loop n d c1 acc = Ok (out, []) ->
    decrypt_bytes_loop n d (c1 ++ c2) acc = decrypt_bytes_loop n d c2 out.
Proof.
  induction c1 as [| c rest IH]; intros acc out H;
    cbn [app decrypt_bytes_loop] in *.
  - injection H as <-. reflexivity.
  - destruct (pow3 c d n) as [v | ex |]; cbn [obind] in *; try discriminate.
    destruct (negb ((0 <=? v) && (v <=? 255))); [discriminate |].
    destruct (to_byte v) as [b | ex |]; cbn [obind] in *; try discriminate.
    now apply IH.
Qed.

(** X11.  The byte path works byte by byte as well: when two byte
    strings encrypt, their concatenation encrypts to the concatenation of
    the ciphertexts; when two ciphertexts decrypt without error, their
    concatenation decrypts to the concatenation of the byte strings. *)
Theorem byte_codec_concatenation (pub : public_key) (priv : private_key)
        (d1 d2 : list byte) (c1 c2 : list Z) :
  (encrypt_bytes pub d1 = Ok c1 -> encrypt_bytes pub d2 = Ok c2 ->
   encrypt_bytes pub (d1 ++ d2) = Ok (c1 ++ c2)) /\
  (decrypt_bytes priv c1 = Ok (d1, []) -> decrypt_bytes priv c2 = Ok (d2, []) ->
   decrypt_bytes priv (c1 ++ c2) = Ok (d1 ++ d2, [])).
Proof.
  destruct pub as [n e]. destruct priv as [n' d].
  cbn [encrypt_bytes decrypt_bytes]. split; intros H1 H2.
  - rewrite (encrypt_bytes_loop_app n e d1 d2 [] c1 H1).
    rewrite <- (app_nil_r c1) at 1. now apply encrypt_bytes_loop_shift.
  - rewrite (decrypt_bytes_loop_app n' d c1 c2 [] d1 H1).
    rewrite <- (app_nil_r d1) at 1. now apply decrypt_bytes_loop_shift.
Qed.

Lemma byte_codec_concatenation_witness :
  encrypt_bytes (3233, 17) (["A"] ++ ["B"])%byte = Ok ([2790] ++ [524]) /\
  decrypt_bytes (3233, 2753) ([2790] ++ [524])
  = Ok ((["A"] ++ ["B"])%byte, []).
Proof.
  destruct (byte_codec_concatenation (3233, 17) (3233, 2753)
              ["A"%byte] ["B"%byte] [2790] [524]) as [H1 H2].
  split; [apply H1 | apply H2]; vm_compute; reflexivity.
Defined.

(** ** When [decrypt_text] raises *)

Lemma chr_spec (v : Z) :
  (is_codepoint v -> chr v = Ok v) /\
  (~ is_codepoint v -> chr v = Raise (chr_error v)).
Proof.
  unfold is_codepoint, chr, chr_error.
  destruct (Z.leb_spec 0 v); destruct (Z.ltb_spec v 0x110000); cbn [andb];
    split; intros H1; try lia; try reflexivity;
    destruct ((- 2 ^ 31 <=? v) && (v <? 2 ^ 31)); reflexivity.
Qed.

Lemma decrypt_text_loop_raises (n d : Z) (pre post : list Z) (c : Z) :
  n <> 0 -> 0 <= d ->
  Forall (fun c' => is_codepoint (c' ^ d mod n)) pre ->
  ~ is_codepoint (c ^ d mod n) ->
  forall acc,
    decrypt_text_loop n d (pre ++ c :: post) acc
    = Raise (chr_error (c ^ d mod n)).
Proof.
  intros Hn Hd Hpre Hc.
  induction pre as [| c' pre IH]; intros acc; cbn [app decrypt_text_loop];
    rewrite pow3_nonneg by assumption; cbn [obind].
  - rewrite (proj2 (chr_spec _) Hc). reflexivity.
  - inversion Hpre as [| ? ? Hc' Hrest]; subst.
    rewrite (proj1 (chr_spec _) Hc'). cbn [obind]. now apply IH.
Qed.

(** X12.  [decrypt_text], for a key with [n <> 0] and [d >= 0], returns
    the string of the decrypted values [c^d mod n] when all of them are
    code points; otherwise it raises at the first value that is none:
    [ValueError] when that value fits a C int and [OverflowError] when
    it does not. *)
Theorem decrypt_text_spec (n d : Z) (cipher : list Z) :
  n <> 0 -> 0 <= d ->
  (Forall (fun c => is_codepoint (c ^ d mod n)) cipher ->
   decrypt_text (n, d) cipher = Ok (map (fun c => c ^ d mod n) cipher)) /\
  (forall pre c post,
     cipher = pre ++ c :: post ->
     Forall (fun c' => is_codepoint (c' ^ d mod n)) pre ->
     ~ is_codepoint (c ^ d mod n) ->
     decrypt_text (n, d) cipher = Raise (chr_error (c ^ d mod n))).
Proof.
  intros Hn Hd. cbn [decrypt_text]. split.
  - intros Hall. apply (decrypt_text_loop_ok n d Hd cipher Hn []). exact Hall.
  - intros pre c post -> Hpre Hc. now apply decrypt_text_loop_raises.
Qed.

Lemma is_codepoint_check (n d c : Z) :
  n <> 0 ->
  (0 <=? Zpow_mod c d n) && (Zpow_mod c d n <? 0x110000) = true ->
  is_codepoint (c ^ d mod n).
Proof.
  intros Hn H. rewrite Zpow_mod_correct in H by assumption.
  apply andb_true_iff in H. destruct H as [H1 H2].
  apply Z.leb_le in H1. apply Z.ltb_lt in H2. split; assumption.
Qed.

Lemma not_codepoint_check (n d c : Z) :
  n <> 0 ->
  (0 <=? Zpow_mod c d n) && (Zpow_mod c d n <? 0x110000) = false ->
  ~ is_codepoint (c ^ d mod n).
Proof.
  intros Hn H [H1 H2]. rewrite Zpow_mod_correct in H by assumption.
  apply Z.leb_le in H1. apply Z.ltb_lt in H2. rewrite H1, H2 in H.
  discriminate.
Qed.

Lemma decrypt_text_spec_witness :
  decrypt_text (4235339, 4231223) [2790; 4235338; 7]
  = Raise (chr_error (4235338 ^ 4231223 mod 4235339)) /\
  chr_error (Zpow_mod 4235338 4231223 4235339) = ValueError /\
  decrypt_text (3233, 2753) [2790; 524]
  = Ok (map (fun c => c ^ 2753 mod 3233) [2790; 524]).
Proof.
  split; [| split].
  - destruct (decrypt_text_spec 4235339 4231223 [2790; 4235338; 7]
                                ltac:(lia) ltac:(lia)) as [_ H].
    apply (H [2790] 4235338 [7] eq_refl).
    + apply Forall_cons; [| apply Forall_nil].
      apply is_codepoint_check; [lia | vm_compute; reflexivity].
    + apply not_codepoint_check; [lia | vm_compute; reflexivity].
  - vm_compute. reflexivity.
  - destruct (decrypt_text_spec 3233 2753 [2790; 524]
                                ltac:(lia) ltac:(lia)) as [H _].
    apply H.
    apply Forall_cons; [| apply Forall_cons; [| apply Forall_nil]];
      (apply is_codepoint_check; [lia | vm_compute; reflexivity]).
Defined.

(** ** Round trips in both directions *)

Lemma keypair_shape_primes_rev (half : Z) (n e n' d p q : Z) :
  keypair_shape half (n, e) (n', d) ->
  Z.prime p -> Z.prime q -> n = p * q ->
  forall c, 0 <= c < n -> (c ^ d mod n) ^ e mod n = c.
Proof.
  intros (p0 & q0 & e0 & d0 & Hpub & Hpriv & Hne & Hp0 & Hq0 & He & _ &
          Hed & Hd) Hp Hq Hn.
  injection Hpub as Hn1 He1. injection Hpriv as Hn2 Hd1. subst e0 d0.
  destruct Hp0 as (_ & Hp0r & _). destruct Hq0 as (_ & Hq0r & _).
  pose proof (Z.pow_nonneg 2 (half - 1) ltac:(lia)) as Hpow.
  assert (Hp1 : 1 < p0) by nia.
  assert (Hq1 : 1 < q0) by nia.
  assert (Hfac : p0 * q0 = p * q) by congruence.
  rewrite (Z.mul_comm e d) in Hed.
  destruct (two_prime_factors p0 q0 p q Hp1 Hq1 Hp Hq Hfac)
    as [[E1 E2] | [E1 E2]]; subst p0 q0; intros c Hc; rewrite Hn in *.
  - apply rsa_unit; try assumption; lia.
  - apply rsa_unit; try assumption; try lia; try congruence.
    replace ((p - 1) * (q - 1)) with ((q - 1) * (p - 1)) by ring.
    assumption.
Qed.

Lemma decrypt_text_loop_values (n d : Z) (cipher : list Z) :
  n <> 0 -> 0 <= d ->
  forall acc out,
    decrypt_text_loop n d cipher acc = Ok out ->
    out = acc ++ map (modexp n d) cipher.
Proof.
  intros Hn Hd.
  induction cipher as [| c rest IH]; intros acc out H;
    cbn [decrypt_text_loop map] in *.
  - injection H as <-. now rewrite app_nil_r.
  - rewrite pow3_nonneg in H by assumption. cbn [obind] in H.
    unfold chr in H.
    destruct ((0 <=? c ^ d mod n) && (c ^ d mod n <? 0x110000)).
    + cbn [obind] in H. apply IH in H. rewrite <- app_assoc in H. exact H.
    + destruct ((- 2 ^ 31 <=? c ^ d mod n) && (c ^ d mod n <? 2 ^ 31));
        discriminate.
Qed.

Lemma map_modexp_inverse (n x y : Z) (l : list Z) :
  (forall c, 0 <= c < n -> modexp n y (modexp n x c) = c) ->
  Forall (fun c => 0 <= c < n) l ->
  map (modexp n y) (map (modexp n x) l) = l.
Proof.
  intros Hinv Hall. rewrite map_map. rewrite <- (map_id l) at 2.
  apply map_ext_in. intros c Hc. rewrite Forall_forall in Hall.
  apply Hinv. now apply Hall.
Qed.

(** X13.  The round trip also holds in the other direction: under a key
    pair returned by [generate_keypair] whose modulus is the product of
    two primes, encrypting what [decrypt_text] (or [decrypt_bytes]) made
    of a ciphertext with entries in [0, n) gives that ciphertext back. *)
Theorem rsa_reverse_round_trip (fuel : nat) (bits : Z) (r r' : rng)
        (n e n' d p q : Z) (cipher : list Z) :
  generate_keypair fuel bits r = Ok (((n, e), (n', d)), r') ->
  Z.prime p -> Z.prime q -> n = p * q ->
  Forall (fun c => 0 <= c < n) cipher ->
  (forall text, decrypt_text (n', d) cipher = Ok text ->
                encrypt_text (n, e) text = Ok (cipher, [])) /\
  (forall data, decrypt_bytes (n', d) cipher = Ok (data, []) ->
                encrypt_bytes (n, e) data = Ok cipher).
Proof.
  intros Hrun Hp Hq Hn Hall. apply generate_keypair_ok in Hrun.
  destruct Hrun as [_ Hshape].
  pose proof (keypair_shape_primes_rev _ _ _ _ _ _ _ Hshape Hp Hq Hn) as Hrev.
  destruct (keypair_shape_primes _ _ _ _ _ _ _ Hshape Hp Hq Hn)
    as (-> & Hne & He & Hd & _).
  pose proof (Z.prime_ge_2 p Hp). pose proof (Z.prime_ge_2 q Hq).
  assert (Hn0 : 0 < n) by nia.
  split.
  - intros text Hdec. cbn [decrypt_text] in Hdec.
    apply decrypt_text_loop_values in Hdec; try lia. cbn [app] in Hdec.
    subst text. cbn [encrypt_text].
    rewrite (encrypt_text_loop_ok n e He).
    + cbn [app]. now rewrite (map_modexp_inverse n d e cipher).
    + rewrite Forall_map. apply Forall_forall. intros c _.
      apply Z.mod_pos_bound. assumption.
  - intros data Hdec. cbn [decrypt_bytes] in Hdec.
    destruct (decrypt_bytes_loop_spec n d cipher ltac:(lia) Hd [])
      as (out & log & Hrun & _ & _ & Hsucc).
    rewrite Hrun in Hdec. injection Hdec as -> ->.
    destruct (Hsucc eq_refl) as (bs & Hbs & Hmap). cbn [app] in Hbs. subst bs.
    rewrite encrypt_bytes_never_fails by (assumption || lia).
    rewrite <- (map_map byte_val (modexp n e)), Hmap.
    now rewrite (map_modexp_inverse n d e cipher).
Qed.

Lemma rsa_reverse_round_trip_witness :
  decrypt_text (17947, 17679) [100; 17000] = Ok [3051; 11314] /\
  encrypt_text (17947, 17679) [3051; 11314] = Ok ([100; 17000], []).
Proof.
  assert (Hrun : generate_keypair 1 16 (tape_for 137 131)
                 = Ok (((17947, 17679), (17947, 17679)),
                       mkRng (tape (tape_for 137 131)) 13))
    by (vm_compute; reflexivity).
  assert (Hp : Z.prime 137) by (apply trial_division_prime; vm_compute; reflexivity).
  assert (Hq : Z.prime 131) by (apply trial_division_prime; vm_compute; reflexivity).
  assert (Hdec : decrypt_text (17947, 17679) [100; 17000] = Ok [3051; 11314])
    by (vm_compute; reflexivity).
  split; [exact Hdec |].
  refine (proj1 (rsa_reverse_round_trip 1 16 _ _ 17947 17679 17947 17679
                   137 131 [100; 17000] Hrun Hp Hq eq_refl _) _ Hdec).
  apply Forall_cons; [lia |]. apply Forall_cons; [lia | apply Forall_nil].
Defined.

(** X14.  The byte values 0 and 1 are fixed points of the encryption:
    under every key with [n > 1] and [e >= 1], [encrypt_bytes] leaves
    each byte 0x00 and 0x01 of the data unchanged in the ciphertext. *)
Theorem encrypt_bytes_fixed_points (n e : Z) (data : list byte) :
  1 < n -> 1 <= e ->
  exists cipher,
    encrypt_bytes (n, e) data = Ok cipher /\
    forall i b, nth_error data i = Some b -> byte_val b <= 1 ->
                nth_error cipher i = Some (byte_val b).
Proof.
  intros Hn He. eexists. split.
  - apply encrypt_bytes_never_fails; lia.
  - intros i b Hi Hb. rewrite nth_error_map, Hi. cbn [option_map]. f_equal.
    unfold modexp. pose proof (byte_val_range b) as Hr.
    assert (Hcase : byte_val b = 0 \/ byte_val b = 1) by lia.
    destruct Hcase as [-> | ->].
    + rewrite Z.pow_0_l by lia. apply Z.mod_0_l. lia.
    + rewrite Z.pow_1_l by lia. apply Z.mod_small. lia.
Qed.

Lemma encrypt_bytes_fixed_points_witness :
  exists cipher,
    encrypt_bytes (3233, 17) ["000"; "A"; "001"]%byte = Ok cipher /\
    nth_error cipher 0 = Some 0 /\ nth_error cipher 2 = Some 1.
Proof.
  destruct (encrypt_bytes_fixed_points 3233 17 ["000"; "A"; "001"]%byte
                                       ltac:(lia) ltac:(lia))
    as (cipher & Hrun & Hfix).
  exists cipher. split; [exact Hrun |]. split.
  - apply (Hfix 0%nat "000"%byte); [reflexivity | vm_compute; congruence].
  - apply (Hfix 2%nat "001"%byte); [reflexivity | vm_compute; congruence].
Defined.

Lemma large_key_round_trip (fuel : nat) (bits : Z) (r r' : rng)
      (n e n' d p q : Z) :
  generate_keypair fuel bits r = Ok (((n, e), (n', d)), r') ->
  24 <= bits -> Z.prime p -> Z.prime q -> n = p * q ->
  (forall text,
     Forall is_codepoint text ->
     exists cipher,
       encrypt_text (n, e) text = Ok (cipher, []) /\
       decrypt_text (n', d) cipher = Ok text) /\
  (forall data,
     exists cipher,
       encrypt_bytes (n, e) data = Ok cipher /\
       decrypt_bytes (n', d) cipher = Ok (data, [])).
Proof.
  intros Hrun Hbits Hp Hq Hn.
  destruct (keypair_modulus_bounds _ _ _ _ _ _ _ _ Hrun) as (_ & _ & Hlow & _).
  assert (Hbig : 0x110000 < n).
  { assert (Hh : 12 <= bits / 2) by (apply Z.div_le_lower_bound; lia).
    pose proof (Z.pow_le_mono_r 2 22 (2 * (bits / 2) - 2) ltac:(lia)
                                ltac:(lia)) as Hmono.
    change (2 ^ 22) with 4194304 in Hmono. lia. }
  apply generate_keypair_ok in Hrun. destruct Hrun as [_ Hshape].
  destruct (keypair_shape_primes _ _ _ _ _ _ _ Hshape Hp Hq Hn)
    as (-> & Hne & He & Hd & Hrt).
  assert (Hn0 : n <> 0) by lia.
  split.
  - intros text Hall. exists (map (modexp n e) text). split.
    + cbn [encrypt_text]. apply (encrypt_text_loop_ok n e He text []).
      eapply Forall_impl; [| exact Hall]. unfold is_codepoint. lia.
    + cbn [decrypt_text].
      apply (decrypt_text_of_encrypted n e d text Hn0 Hd).
      eapply Forall_impl; [| exact Hall]. unfold is_codepoint.
      intros u Hu. split; [lia |]. apply Hrt. lia.
  - intros data.
    exists (map (fun b => modexp n e (byte_val b)) data). split.
    + cbn [encrypt_bytes]. apply (encrypt_bytes_loop_ok n e He data Hn0 []).
    + cbn [decrypt_bytes].
      apply (decrypt_bytes_of_encrypted n e d data Hn0 Hd).
      apply Forall_forall. intros b _. apply Hrt.
      pose proof (byte_val_range b). lia.
Qed.

(** X15.  A key pair of at least 24 bits whose modulus is the product of
    two primes is large enough for every message: every string (any code
    points up to 0x10FFFF) is encrypted without [UnitTooLarge] and
    decrypted to itself, and so is every byte string. *)
Theorem every_message_round_trips (fuel : nat) (bits : Z) (r r' : rng)
        (n e n' d p q : Z) :
  generate_keypair fuel bits r = Ok (((n, e), (n', d)), r') ->
  24 <= bits -> Z.prime p -> Z.prime q -> n = p * q ->
  (forall text,
     Forall is_codepoint text ->
     exists cipher,
       encrypt_text (n, e) text = Ok (cipher, []) /\
       decrypt_text (n', d) cipher = Ok text) /\
  (forall data,
     exists cipher,
       encrypt_bytes (n, e) data = Ok cipher /\
       decrypt_bytes (n', d) cipher = Ok (data, [])).
Proof. apply large_key_round_trip. Qed.

Lemma every_message_round_trips_witness :
  exists cipher,
    encrypt_text (4235339, 4231223) [72; 0x1F510; 0x10FFFF]
    = Ok (cipher, []) /\
    decrypt_text (4235339, 4231223) cipher = Ok [72; 0x1F510; 0x10FFFF].
Proof.
  assert (Hrun : generate_keypair 1 24 (tape_for 2053 2063)
                 = Ok (((4235339, 4231223), (4235339, 4231223)),
                       mkRng (tape (tape_for 2053 2063)) 13))
    by (vm_compute; reflexivity).
  assert (Hp : Z.prime 2053) by (apply trial_division_prime; vm_compute; reflexivity).
  assert (Hq : Z.prime 2063) by (apply trial_division_prime; vm_compute; reflexivity).
  destruct (every_message_round_trips 1 24 _ _ 4235339 4231223 4235339
              4231223 2053 2063 Hrun ltac:(lia) Hp Hq eq_refl) as [Htext _].
  apply Htext.
  apply Forall_cons; [unfold is_codepoint; lia |].
  apply Forall_cons; [unfold is_codepoint; lia |].
  apply Forall_cons; [unfold is_codepoint; lia | apply Forall_nil].
Defined.

(** * Properties of the Streamlit pages *)




Lemma sound_keys_round_trip (s : session) :
  sound_keys s ->
  exists n e d,
    ss_public_key s = Some (n, e) /\ ss_private_key s = Some (n, d) /\
    (forall text,
       Forall is_codepoint text ->
       exists cipher,
         encrypt_text (n, e) text = Ok (cipher, []) /\
         decrypt_text (n, d) cipher = Ok text) /\
    (forall data,
       exists cipher,
         encrypt_bytes (n, e) data = Ok cipher /\
         decrypt_bytes (n, d) cipher = Ok (data, [])).
Proof.
  intros (fuel & bits & r & r' & n & e & d & p & q & Hrun & Hbits & Hp & Hq &
          Hn & Hpub & Hpriv).
  exists n, e, d. split; [assumption |]. split; [assumption |].
  exact (large_key_round_trip _ _ _ _ _ _ _ _ _ _ Hrun Hbits Hp Hq Hn).
Qed.

Lemma decrypt_text_nil (priv : private_key) : decrypt_text priv [] = Ok [].
Proof. destruct priv. reflexivity. Qed.

Lemma decrypt_bytes_nil (priv : private_key) :
  decrypt_bytes priv [] = Ok ([], []).
Proof. destruct priv. reflexivity. Qed.

(** What page 3 does when its button is pressed and both a private key
    and a ciphertext are there. *)
Lemma page_text_decryption_pressed (s : session) (priv : private_key)
      (c : Z) (cs decrypted : list Z) :
  ss_private_key s = Some priv -> ss_encrypted_text_msg s = c :: cs ->
  decrypt_text priv (c :: cs) = Ok decrypted ->
  page_text_decryption true s
  = Ok (set_decrypted_text_msg decrypted s,
        [TextDecrypted;
         if list_eq_dec Z.eq_dec (ss_original_text_msg s) decrypted
         then TextVerified else TextMismatch]).
Proof.
  intros Hpriv Hcipher Hdec. unfold page_text_decryption.
  rewrite Hpriv, Hcipher, Hdec. reflexivity.
Qed.

(** What page 2 does when its button is pressed, a public key is there
    and the message encrypts to a non-empty ciphertext. *)
Lemma page_text_encryption_pressed (s : session) (pub : public_key)
      (message : list Z) (c : Z) (cs : list Z) :
  ss_public_key s = Some pub ->
  encrypt_text pub message = Ok (c :: cs, []) ->
  page_text_encryption message true s
  = Ok (set_encrypted_text_msg (c :: cs) (set_original_text_msg message s),
        [TextEncrypted]).
Proof.
  intros Hpub Henc. unfold page_text_encryption. rewrite Hpub.
  cbn [set_original_text_msg ss_public_key]. rewrite Hpub, Henc. reflexivity.
Qed.

(** X17.  With sound keys in the session, encrypting any non-empty
    message on page 2 and then decrypting on page 3 ends with the
    success message of the verification, and the decrypted text stored
    in the session is the message. *)
Theorem text_flow_verifies (s : session) (message : list Z) :
  sound_keys s -> message <> [] -> Forall is_codepoint message ->
  exists s2 s3,
    page_text_encryption message true s = Ok (s2, [TextEncrypted]) /\
    page_text_decryption true s2 = Ok (s3, [TextDecrypted; TextVerified]) /\
    ss_decrypted_text_msg s3 = message.
Proof.
  intros Hkeys Hne Hvalid.
  destruct (sound_keys_round_trip s Hkeys)
    as (n & e & d & Hpub & Hpriv & Htext & _).
  destruct (Htext message Hvalid) as (cipher & Henc & Hdec).
  destruct cipher as [| c cs].
  { rewrite decrypt_text_nil in Hdec. congruence. }
  eexists. eexists. split; [| split].
  - exact (page_text_encryption_pressed s (n, e) message c cs Hpub Henc).
  - rewrite (page_text_decryption_pressed _ (n, d) c cs message);
      try reflexivity; try assumption.
    cbn [set_encrypted_text_msg set_original_text_msg ss_original_text_msg].
    destruct (list_eq_dec Z.eq_dec message message) as [_ | N];
      [reflexivity | contradiction].
  - reflexivity.
Qed.

Lemma key_session_24_sound : sound_keys key_session_24.
Proof.
  exists 1%nat, 24, (tape_for 2053 2063),
         (mkRng (tape (tape_for 2053 2063)) 13),
         4235339, 4231223, 4231223, 2053, 2063.
  split; [vm_compute; reflexivity |]. split; [lia |].
  split; [apply trial_division_prime; vm_compute; reflexivity |].
  split; [apply trial_division_prime; vm_compute; reflexivity |].
  split; [reflexivity |]. split; reflexivity.
Qed.

Lemma text_flow_verifies_witness :
  exists s2 s3,
    page_text_encryption [72; 105] true key_session_24
    = Ok (s2, [TextEncrypted]) /\
    page_text_decryption true s2 = Ok (s3, [TextDecrypted; TextVerified]) /\
    ss_decrypted_text_msg s3 = [72; 105].
Proof.
  apply (text_flow_verifies key_session_24 [72; 105] key_session_24_sound).
  - discriminate.
  - apply Forall_cons; [unfold is_codepoint; lia |].
    apply Forall_cons; [unfold is_codepoint; lia | apply Forall_nil].
Defined.

(** X18.  The verification of page 3 compares the decrypted text with
    the current content of the text area of page 2, not with the message
    that was encrypted: after a message [m] is encrypted, showing page 2
    again with another text and then decrypting stores [m] as the
    decrypted text and yet reports that the decryption failed. *)
Theorem verification_uses_current_text_area (s : session) (m m2 : list Z) :
  sound_keys s -> m <> [] -> Forall is_codepoint m -> m2 <> m ->
  exists s1 s2 s3,
    page_text_encryption m true s = Ok (s1, [TextEncrypted]) /\
    page_text_encryption m2 false s1 = Ok (s2, []) /\
    page_text_decryption true s2 = Ok (s3, [TextDecrypted; TextMismatch]) /\
    ss_decrypted_text_msg s3 = m.
Proof.
  intros Hkeys Hne Hvalid Hdiff.
  destruct (sound_keys_round_trip s Hkeys)
    as (n & e & d & Hpub & Hpriv & Htext & _).
  destruct (Htext m Hvalid) as (cipher & Henc & Hdec).
  destruct cipher as [| c cs].
  { rewrite decrypt_text_nil in Hdec. congruence. }
  eexists. eexists. eexists. split; [| split; [| split]].
  - exact (page_text_encryption_pressed s (n, e) m c cs Hpub Henc).
  - unfold page_text_encryption.
    cbn [set_encrypted_text_msg set_original_text_msg ss_public_key].
    rewrite Hpub. reflexivity.
  - rewrite (page_text_decryption_pressed _ (n, d) c cs m);
      try reflexivity; try assumption.
    cbn [set_encrypted_text_msg set_original_text_msg ss_original_text_msg].
    destruct (list_eq_dec Z.eq_dec m2 m) as [E | _];
      [contradiction | reflexivity].
  - reflexivity.
Qed.

Lemma verification_uses_current_text_area_witness :
  exists s1 s2 s3,
    page_text_encryption [72; 105] true key_session_24
    = Ok (s1, [TextEncrypted]) /\
    page_text_encryption [72; 111] false s1 = Ok (s2, []) /\
    page_text_decryption true s2 = Ok (s3, [TextDecrypted; TextMismatch]) /\
    ss_decrypted_text_msg s3 = [72; 105].
Proof.
  apply (verification_uses_current_text_area key_session_24 [72; 105]
           [72; 111] key_session_24_sound).
  - discriminate.
  - apply Forall_cons; [unfold is_codepoint; lia |].
    apply Forall_cons; [unfold is_codepoint; lia | apply Forall_nil].
  - discriminate.
Defined.

(** X19.  What pressing "Encrypt Text Message" does, for a stored public
    key with [e >= 0]: an empty message is reported as a failed
    encryption although no character was too large; a message with a
    character code not below [n] is reported with [UnitTooLarge] for the
    first such character and then as a failed encryption; in both cases
    the stored ciphertext is kept.  Any other message replaces the
    stored ciphertext by its encryption and is reported as a success. *)
Theorem page_text_encryption_cases (s : session) (n e : Z)
        (message : list Z) :
  ss_public_key s = Some (n, e) -> 0 <= e ->
  Forall (fun u => 0 <= u) message ->
  (message = [] ->
   page_text_encryption message true s
   = Ok (set_original_text_msg message s, [TextEncryptionFailed])) /\
  (forall pre u post,
     message = pre ++ u :: post -> Forall (fun v => v < n) pre -> n <= u ->
     page_text_encryption message true s
     = Ok (set_original_text_msg message s,
           [CoreError (UnitTooLarge u n); TextEncryptionFailed])) /\
  (message <> [] -> Forall (fun u => u < n) message ->
   page_text_encryption message true s
   = Ok (set_encrypted_text_msg (map (fun u => u ^ e mod n) message)
                                (set_original_text_msg message s),
         [TextEncrypted])).
Proof.
  intros Hpub He Hnn. unfold page_text_encryption. rewrite Hpub.
  cbn [set_original_text_msg ss_public_key]. rewrite Hpub.
  cbn [encrypt_text]. split; [| split].
  - intros ->. reflexivity.
  - intros pre u post -> Hpre Hu.
    rewrite encrypt_text_loop_first_large; try assumption; [reflexivity |].
    apply Forall_app in Hnn. destruct Hnn as [Hnn _].
    rewrite Forall_forall in *. intros v Hv.
    specialize (Hnn v Hv). specialize (Hpre v Hv). cbv beta in *. lia.
  - intros Hne Hsmall.
    rewrite (encrypt_text_loop_ok n e He message []).
    + cbn [app obind]. destruct message as [| u rest]; [contradiction |].
      reflexivity.
    + rewrite Forall_forall in *. intros u Hu.
      specialize (Hnn u Hu). specialize (Hsmall u Hu). cbv beta in *. lia.
Qed.

Lemma page_text_encryption_cases_witness :
  page_text_encryption [] true key_session_24
  = Ok (set_original_text_msg [] key_session_24, [TextEncryptionFailed]) /\
  page_text_encryption ([72] ++ 4235339 :: [105]) true key_session_24
  = Ok (set_original_text_msg ([72] ++ 4235339 :: [105]) key_session_24,
        [CoreError (UnitTooLarge 4235339 4235339); TextEncryptionFailed]).
Proof.
  split.
  - destruct (page_text_encryption_cases key_session_24 4235339 4231223 []
                eq_refl ltac:(lia) (Forall_nil _)) as (H & _).
    now apply H.
  - assert (Hnn : Forall (fun u => 0 <= u) ([72] ++ 4235339 :: [105])).
    { apply Forall_cons; [lia |]. apply Forall_cons; [lia |].
      apply Forall_cons; [lia | apply Forall_nil]. }
    destruct (page_text_encryption_cases key_session_24 4235339 4231223 _
                eq_refl ltac:(lia) Hnn) as (_ & H & _).
    apply (H [72] 4235339 [105] eq_refl); [| lia].
    apply Forall_cons; [lia | apply Forall_nil].
Defined.

Lemma obind_ok {A B} (o : outcome A) (k : A -> outcome B) (b : B) :
  obind o k = Ok b -> exists a, o = Ok a /\ k a = Ok b.
Proof.
  destruct o as [a | e |]; cbn [obind]; try discriminate.
  intros H. exists a. split; [reflexivity | assumption].
Qed.

Lemma page_text_encryption_keys (m : list Z) (pressed : bool)
      (s s' : session) (ev : list ui_event) :
  page_text_encryption m pressed s = Ok (s', ev) ->
  ss_public_key s' = ss_public_key s /\
  ss_private_key s' = ss_private_key s.
Proof.
  destruct s as [pk sk et ot dt ei oi ty lb].
  unfold page_text_encryption.
  cbn [ss_public_key ss_private_key set_original_text_msg].
  destruct pk as [pub |].
  - destruct pressed.
    + intros H. apply obind_ok in H. destruct H as ([c errs] & _ & H).
      destruct c; injection H as <- _; split; reflexivity.
    + intros H. injection H as <- _. split; reflexivity.
  - intros H. injection H as <- _. split; reflexivity.
Qed.

Lemma page_text_decryption_frame (pressed : bool) (s s' : session)
      (ev : list ui_event) :
  page_text_decryption pressed s = Ok (s', ev) ->
  ss_public_key s' = ss_public_key s /\
  ss_private_key s' = ss_private_key s /\
  ss_encrypted_text_msg s' = ss_encrypted_text_msg s /\
  ss_original_text_msg s' = ss_original_text_msg s.
Proof.
  destruct s as [pk sk et ot dt ei oi ty lb].
  unfold page_text_decryption.
  cbn [ss_public_key ss_private_key ss_encrypted_text_msg
       ss_original_text_msg].
  destruct sk as [priv |]; destruct et as [| c cs];
    try (intros H; injection H as <- _; repeat split; reflexivity).
  destruct pressed.
  - intros H. apply obind_ok in H. destruct H as (m & _ & H).
    injection H as <- _. repeat split; reflexivity.
  - intros H. injection H as <- _. repeat split; reflexivity.
Qed.

Lemma image_upload_frame (preview_ok : list byte -> bool)
      (uploaded u : option (list byte * String.string))
      (s s1 : session) (e1 : list ui_event) :
  image_upload preview_ok uploaded s = (s1, u, e1) ->
  ss_public_key s1 = ss_public_key s /\
  ss_private_key s1 = ss_private_key s /\
  ss_encrypted_text_msg s1 = ss_encrypted_text_msg s /\
  ss_original_text_msg s1 = ss_original_text_msg s /\
  ss_decrypted_text_msg s1 = ss_decrypted_text_msg s.
Proof.
  destruct s as [pk sk et ot dt ei oi ty lb]. unfold image_upload.
  destruct uploaded as [[b t] |]; [destruct (preview_ok b) |];
    intros H; injection H as <- _ _; repeat split; reflexivity.
Qed.

Lemma image_encryption_frame
      (u : option (list byte * String.string)) (pressed : bool)
      (s s2 : session) (e2 : list ui_event) :
  image_encryption u pressed s = Ok (s2, e2) ->
  ss_public_key s2 = ss_public_key s /\
  ss_private_key s2 = ss_private_key s /\
  ss_encrypted_text_msg s2 = ss_encrypted_text_msg s /\
  ss_original_text_msg s2 = ss_original_text_msg s /\
  ss_decrypted_text_msg s2 = ss_decrypted_text_msg s.
Proof.
  destruct s as [pk sk et ot dt ei oi ty lb]. unfold image_encryption.
  cbn [ss_public_key].
  destruct u as [[b t] |]; destruct pk as [pub |];
    try (intros H; injection H as <- _; repeat split; reflexivity).
  destruct pressed;
    [| intros H; injection H as <- _; repeat split; reflexivity].
  intros H. apply obind_ok in H. destruct H as (c & _ & H).
  destruct c; injection H as <- _; repeat split; reflexivity.
Qed.

Lemma page_image_keys (preview_ok : list byte -> bool)
      (display_ok : list byte -> option String.string -> bool)
      (uploaded : option (list byte * String.string))
      (pressed_encrypt pressed_decrypt : bool) (s s' : session)
      (ev : list ui_event) :
  page_image preview_ok display_ok uploaded pressed_encrypt pressed_decrypt s
  = Ok (s', ev) ->
  ss_public_key s' = ss_public_key s /\
  ss_private_key s' = ss_private_key s /\
  ss_encrypted_text_msg s' = ss_encrypted_text_msg s /\
  ss_original_text_msg s' = ss_original_text_msg s /\
  ss_decrypted_text_msg s' = ss_decrypted_text_msg s.
Proof.
  unfold page_image.
  destruct (image_upload preview_ok uploaded s) as [[s1 u] e1] eqn:E.
  apply image_upload_frame in E.
  intros H. apply obind_ok in H. destruct H as ([s2 e2] & Henc & H).
  apply image_encryption_frame in Henc.
  apply obind_ok in H. destruct H as (e3 & _ & H). injection H as <- _.
  destruct E as (U1 & U2 & U3 & U4 & U5).
  destruct Henc as (E1 & E2 & E3 & E4 & E5).
  repeat split; congruence.
Qed.

(** X20.  Only the key generation page changes the keys: whatever the
    widgets return, pages 2, 3 and 4 leave both stored keys as they
    were; page 3 changes neither the stored ciphertext nor the stored
    original message, and page 4 changes none of the text fields. *)
Theorem pages_keep_keys (s s' : session) (ev : list ui_event) :
  (forall m pressed,
     page_text_encryption m pressed s = Ok (s', ev) ->
     ss_public_key s' = ss_public_key s /\
     ss_private_key s' = ss_private_key s) /\
  (forall pressed,
     page_text_decryption pressed s = Ok (s', ev) ->
     ss_public_key s' = ss_public_key s /\
     ss_private_key s' = ss_private_key s /\
     ss_encrypted_text_msg s' = ss_encrypted_text_msg s /\
     ss_original_text_msg s' = ss_original_text_msg s) /\
  (forall preview_ok display_ok uploaded pressed_encrypt pressed_decrypt,
     page_image preview_ok display_ok uploaded pressed_encrypt
                pressed_decrypt s = Ok (s', ev) ->
     ss_public_key s' = ss_public_key s /\
     ss_private_key s' = ss_private_key s /\
     ss_encrypted_text_msg s' = ss_encrypted_text_msg s /\
     ss_original_text_msg s' = ss_original_text_msg s /\
     ss_decrypted_text_msg s' = ss_decrypted_text_msg s).
Proof.
  split; [| split].
  - intros m pressed. apply page_text_encryption_keys.
  - intros pressed. apply page_text_decryption_frame.
  - intros preview_ok display_ok uploaded pe pd. apply page_image_keys.
Qed.

Lemma pages_keep_keys_witness :
  ss_public_key
    (set_encrypted_text_msg [764714; 645385]
       (set_original_text_msg [72; 105] key_session_24))
  = ss_public_key key_session_24 /\
  ss_private_key
    (set_encrypted_text_msg [764714; 645385]
       (set_original_text_msg [72; 105] key_session_24))
  = ss_private_key key_session_24.
Proof.
  destruct (pages_keep_keys key_session_24
              (set_encrypted_text_msg [764714; 645385]
                 (set_original_text_msg [72; 105] key_session_24))
              [TextEncrypted]) as (H & _).
  apply (H [72; 105] true). vm_compute. reflexivity.
Defined.

(** ** The image page *)

Lemma image_encryption_pressed (s : session) (pub : public_key)
      (data : list byte) (mime : String.string) (c : Z) (cs : list Z) :
  ss_public_key s = Some pub -> encrypt_bytes pub data = Ok (c :: cs) ->
  image_encryption (Some (data, mime)) true s
  = Ok (set_encrypted_image_data (c :: cs) s, [ImageEncrypted]).
Proof.
  intros Hpub Henc. unfold image_encryption. rewrite Hpub, Henc. reflexivity.
Qed.

Lemma image_decryption_pressed
      (display_ok : list byte -> option String.string -> bool)
      (s : session) (priv : private_key) (c : Z) (cs : list Z)
      (b : byte) (bs : list byte) :
  ss_private_key s = Some priv -> ss_encrypted_image_data s = c :: cs ->
  decrypt_bytes priv (c :: cs) = Ok (b :: bs, []) ->
  image_decryption display_ok true s
  = Ok (ImageDecrypted :: image_verification display_ok (b :: bs) s).
Proof.
  intros Hp Hc Hd. unfold image_decryption. rewrite Hp, Hc, Hd. reflexivity.
Qed.

(** The encryption run of page 4 on a previewable image, with sound
    keys. *)
Lemma image_encryption_run (preview_ok : list byte -> bool)
      (display_ok : list byte -> option String.string -> bool)
      (s : session) (data : list byte) (mime : String.string) :
  sound_keys s -> data <> [] -> preview_ok data = true ->
  exists pub priv c cs,
    ss_public_key s = Some pub /\ ss_private_key s = Some priv /\
    decrypt_bytes priv (c :: cs) = Ok (data, []) /\
    page_image preview_ok display_ok (Some (data, mime)) true false s
    = Ok (set_encrypted_image_data
            (c :: cs) (set_original_image (Some data) (Some mime) s),
          [ImageEncrypted]).
Proof.
  intros Hkeys Hne Hprev.
  destruct (sound_keys_round_trip s Hkeys)
    as (n & e & d & Hpub & Hpriv & _ & Hbytes).
  destruct (Hbytes data) as (cipher & Henc & Hdec).
  destruct cipher as [| c cs].
  { rewrite decrypt_bytes_nil in Hdec. congruence. }
  exists (n, e), (n, d), c, cs.
  split; [assumption |]. split; [assumption |]. split; [assumption |].
  unfold page_image, image_upload. rewrite Hprev.
  rewrite (image_encryption_pressed _ (n, e) data mime c cs);
    [| exact Hpub | exact Henc].
  cbn [obind]. unfold image_decryption.
  cbn [set_encrypted_image_data set_original_image ss_private_key
       ss_encrypted_image_data].
  rewrite Hpriv. reflexivity.
Qed.

(** X21.  With sound keys in the session, encrypting any non-empty
    uploaded image that can be previewed and then decrypting it, the
    image still being in the uploader, ends with the success message of
    the verification, provided the decrypted bytes can be displayed. *)
Theorem image_flow_verifies (preview_ok : list byte -> bool)
        (display_ok : list byte -> option String.string -> bool)
        (s : session) (data : list byte) (mime : String.string) :
  sound_keys s -> data <> [] -> preview_ok data = true ->
  display_ok data (Some mime) = true ->
  exists s1,
    page_image preview_ok display_ok (Some (data, mime)) true false s
    = Ok (s1, [ImageEncrypted]) /\
    ss_original_image_bytes s1 = Some data /\
    page_image preview_ok display_ok (Some (data, mime)) false true s1
    = Ok (s1, [ImageDecrypted; ImageVerified]).
Proof.
  intros Hkeys Hne Hprev Hdisp.
  destruct (image_encryption_run preview_ok display_ok s data mime
              Hkeys Hne Hprev)
    as (pub & priv & c & cs & Hpub & Hpriv & Hdec & Hrun).
  eexists. split; [exact Hrun |]. split; [reflexivity |].
  destruct data as [| b bs]; [contradiction |].
  destruct s as [pk sk et ot dt ei oi ty lb]. cbn in Hpub, Hpriv.
  subst pk sk. unfold page_image, image_upload. rewrite Hprev.
  unfold image_encryption.
  cbn [set_encrypted_image_data set_original_image ss_public_key
       ss_private_key ss_encrypted_text_msg ss_original_text_msg
       ss_decrypted_text_msg ss_encrypted_image_data ss_original_image_bytes
       ss_original_image_type ss_last_key_bits].
  assert (Hd : forall s0,
             ss_private_key s0 = Some priv ->
             ss_encrypted_image_data s0 = c :: cs ->
             ss_original_image_bytes s0 = Some (b :: bs) ->
             ss_original_image_type s0 = Some mime ->
             image_decryption display_ok true s0
             = Ok [ImageDecrypted; ImageVerified]).
  { intros s0 H1 H2 H3 H4.
    rewrite (image_decryption_pressed display_ok s0 priv c cs b bs H1 H2 Hdec).
    unfold image_verification. rewrite H4, Hdisp, H3.
    destruct (list_eq_dec Byte.byte_eq_dec (b :: bs) (b :: bs)) as [_ | N];
      [reflexivity | contradiction]. }
  cbn [obind]. rewrite Hd; reflexivity.
Qed.

Lemma image_flow_verifies_witness :
  exists s1,
    page_image (fun _ => true) (fun _ _ => true)
               (Some ([x89; x50; x4e; x47], Mime.png))
               true false key_session_24
    = Ok (s1, [ImageEncrypted]) /\
    ss_original_image_bytes s1 = Some [x89; x50; x4e; x47] /\
    page_image (fun _ => true) (fun _ _ => true)
               (Some ([x89; x50; x4e; x47], Mime.png))
               false true s1
    = Ok (s1, [ImageDecrypted; ImageVerified]).
Proof.
  apply (image_flow_verifies (fun _ => true) (fun _ _ => true)
           key_session_24 [x89; x50; x4e; x47] Mime.png
           key_session_24_sound).
  - discriminate.
  - reflexivity.
  - reflexivity.
Defined.



(** ** What the pages report and keep *)





Lemma invariant_frame (s s' : session) :
  session_invariant s ->
  ss_public_key s' = ss_public_key s ->
  ss_private_key s' = ss_private_key s ->
  (ss_public_key s = None ->
   ss_encrypted_text_msg s' = [] /\ ss_original_text_msg s' = [] /\
   ss_decrypted_text_msg s' = [] /\ ss_encrypted_image_data s' = []) ->
  (ss_original_image_bytes s' = None <-> ss_original_image_type s' = None) ->
  session_invariant s'.
Proof.
  intros (K & E & I) Hp Hs He Hi. unfold session_invariant.
  rewrite Hp, Hs. split; [exact K |]. split; [exact He | exact Hi].
Qed.

Lemma invariant_private_key (s : session) :
  session_invariant s -> ss_public_key s = None -> ss_private_key s = None.
Proof.
  intros (K & _) Hn.
  destruct K as [[_ K] | (f & b & r & r' & pub & priv & _ & K & _)];
    [exact K | congruence].
Qed.

Lemma page_key_generation_invariant (fuel : nat) (key_bits : Z)
      (pressed : bool) (s s' : session) (ev : list ui_event) (r r' : rng) :
  page_key_generation fuel key_bits pressed s r = Ok ((s', ev), r') ->
  session_invariant s -> session_invariant s'.
Proof.
  unfold page_key_generation. destruct pressed.
  - intros H Hinv. run_bind H. destruct a as [pub priv].
    apply ret_ok in H. destruct H as [H _]. injection H as -> _.
    split; [| split].
    + right. exists fuel, key_bits, r, r0, pub, priv.
      split; [exact Hm |]. split; reflexivity.
    + discriminate.
    + exact (proj2 (proj2 Hinv)).
  - intros H Hinv. apply ret_ok in H. destruct H as [H _].
    injection H as -> _. exact Hinv.
Qed.

Lemma page_text_encryption_invariant (m : list Z) (pressed : bool)
      (s s' : session) (ev : list ui_event) :
  page_text_encryption m pressed s = Ok (s', ev) ->
  session_invariant s -> session_invariant s'.
Proof.
  intros H Hinv. apply (invariant_frame s s' Hinv).
  - apply (page_text_encryption_keys _ _ _ _ _ H).
  - apply (page_text_encryption_keys _ _ _ _ _ H).
  - intros Hn. unfold page_text_encryption in H. rewrite Hn in H.
    injection H as <- _. destruct Hinv as (_ & E & _). exact (E Hn).
  - unfold page_text_encryption in H.
    destruct (ss_public_key s) as [pub |] eqn:Hpub;
      [| injection H as <- _; apply Hinv].
    destruct pressed; [| injection H as <- _; apply Hinv].
    cbn [set_original_text_msg ss_public_key] in H. rewrite Hpub in H.
    apply obind_ok in H. destruct H as ([c errs] & _ & H).
    destruct c; injection H as <- _; apply Hinv.
Qed.

Lemma page_text_decryption_invariant (pressed : bool) (s s' : session)
      (ev : list ui_event) :
  page_text_decryption pressed s = Ok (s', ev) ->
  session_invariant s -> session_invariant s'.
Proof.
  intros H Hinv.
  pose proof (invariant_private_key s Hinv) as Hk.
  unfold page_text_decryption in H.
  destruct (ss_private_key s) as [priv |] eqn:Hp;
    destruct (ss_encrypted_text_msg s) as [| c cs] eqn:Hc;
    try (injection H as <- _; exact Hinv).
  destruct pressed; [| injection H as <- _; exact Hinv].
  apply obind_ok in H. destruct H as (m & _ & H). injection H as <- _.
  apply (invariant_frame s _ Hinv); try reflexivity.
  - intros Hn. specialize (Hk Hn). discriminate.
  - apply Hinv.
Qed.

Lemma page_image_invariant (preview_ok : list byte -> bool)
      (display_ok : list byte -> option String.string -> bool)
      (uploaded : option (list byte * String.string))
      (pressed_encrypt pressed_decrypt : bool) (s s' : session)
      (ev : list ui_event) :
  page_image preview_ok display_ok uploaded pressed_encrypt pressed_decrypt s
  = Ok (s', ev) ->
  session_invariant s -> session_invariant s'.
Proof.
  intros H Hinv.
  destruct (page_image_keys _ _ _ _ _ _ _ _ H) as (K1 & K2 & K3 & K4 & K5).
  apply (invariant_frame s s' Hinv K1 K2).
  - intros Hn. destruct Hinv as (_ & E & _). destruct (E Hn) as (E1 & E2 & E3 & E4).
    rewrite K3, K4, K5. repeat split; try assumption.
    unfold page_image in H.
    destruct (image_upload preview_ok uploaded s) as [[s1 u] e1] eqn:Hup.
    apply obind_ok in H. destruct H as ([s2 e2] & Henc & H).
    apply obind_ok in H. destruct H as (e3 & _ & H). injection H as <- _.
    assert (H1 : ss_public_key s1 = None /\ ss_encrypted_image_data s1 = []).
    { unfold image_upload in Hup.
      destruct uploaded as [[b t] |]; [destruct (preview_ok b) |];
        injection Hup as <- _ _; split; assumption. }
    destruct H1 as (H1 & H2). unfold image_encryption in Henc.
    rewrite H1 in Henc.
    destruct u as [[b t] |]; injection Henc as <- _; exact H2.
  - unfold page_image in H.
    destruct (image_upload preview_ok uploaded s) as [[s1 u] e1] eqn:Hup.
    apply obind_ok in H. destruct H as ([s2 e2] & Henc & H).
    apply obind_ok in H. destruct H as (e3 & _ & H). injection H as <- _.
    assert (H1 : ss_original_image_bytes s1 = None <->
                 ss_original_image_type s1 = None).
    { unfold image_upload in Hup.
      destruct uploaded as [[b t] |]; [destruct (preview_ok b) |];
        injection Hup as <- _ _; cbn; try apply Hinv;
        split; (discriminate || reflexivity). }
    unfold image_encryption in Henc.
    destruct u as [[b t] |]; destruct (ss_public_key s1) as [pub |];
      try (injection Henc as <- _; exact H1).
    destruct pressed_encrypt; [| injection Henc as <- _; exact H1].
    apply obind_ok in Henc. destruct Henc as (c & _ & Henc).
    destruct c; injection Henc as <- _; exact H1.
Qed.

Lemma script_invariant (fuel : nat) (page : interaction) (s s' : session)
      (ev : list ui_event) (r r' : rng) :
  script fuel page s r = Ok ((s', ev), r') ->
  session_invariant s -> session_invariant s'.
Proof.
  destruct page as [bits pressed | m pressed | pressed | po d u pe pd];
    cbn [script]; intros H.
  - exact (page_key_generation_invariant _ _ _ _ _ _ _ _ H).
  - apply lift_ok in H. destruct H as [H _].
    exact (page_text_encryption_invariant _ _ _ _ _ H).
  - apply lift_ok in H. destruct H as [H _].
    exact (page_text_decryption_invariant _ _ _ _ H).
  - apply lift_ok in H. destruct H as [H _].
    exact (page_image_invariant _ _ _ _ _ _ _ _ H).
Qed.

Lemma initial_session_invariant : session_invariant initial_session.
Proof.
  split; [left; split; reflexivity |]. split; [| split; reflexivity].
  intros _. repeat split; reflexivity.
Qed.

Lemma reruns_invariant (fuel : nat) (pages : list interaction) :
  forall (s s' : session) (r r' : rng),
    reruns fuel pages s r = Ok (s', r') ->
    session_invariant s -> session_invariant s'.
Proof.
  induction pages as [| page rest IH]; intros s s' r r' H Hinv.
  - apply ret_ok in H. destruct H as [-> _]. exact Hinv.
  - cbn [reruns] in H. run_bind H. destruct a as [s1 ev].
    apply (IH _ _ _ _ H). exact (script_invariant _ _ _ _ _ _ _ Hm Hinv).
Qed.

(** X24.  After any sequence of runs of the script that started from the
    initial session and completed, the stored keys are absent together or
    are the two halves of one result of [generate_keypair]; as long as
    there are no keys, no message, no ciphertext and no encrypted image
    is stored; and the stored image bytes and image type are absent
    together. *)
Theorem reachable_sessions_invariant (fuel : nat) (pages : list interaction)
        (s : session) (r r' : rng) :
  reruns fuel pages initial_session r = Ok (s, r') -> session_invariant s.
Proof.
  intros H.
  exact (reruns_invariant fuel pages _ _ _ _ H initial_session_invariant).
Qed.

Lemma reachable_sessions_invariant_witness :
  session_invariant
    (set_decrypted_text_msg [72; 105]
       (set_encrypted_text_msg [764714; 645385]
          (set_original_text_msg [72; 105] key_session_24))).
Proof.
  assert (H : reruns 1 [KeyGeneration 24 true; TextEncryption [72; 105] true;
                        TextDecryption true]
                     initial_session (tape_for 2053 2063)
              = Ok (set_decrypted_text_msg [72; 105]
                      (set_encrypted_text_msg [764714; 645385]
                         (set_original_text_msg [72; 105] key_session_24)),
                    mkRng (tape (tape_for 2053 2063)) 13))
    by (vm_compute; reflexivity).
  exact (reachable_sessions_invariant _ _ _ _ _ H).
Defined.

Ltac live_events :=
  repeat (apply Forall_app; split);
  try (apply Forall_forall; intros ? Hx; apply in_map_iff in Hx;
       destruct Hx as (? & <- & _); reflexivity);
  repeat (apply Forall_cons; [reflexivity |]); try apply Forall_nil.

Lemma image_verification_live
      (display_ok : list byte -> option String.string -> bool)
      (b : list byte) (s : session) :
  Forall (fun e => repeated_check_warning e = false)
         (image_verification display_ok b s).
Proof.
  unfold image_verification.
  destruct (display_ok b (ss_original_image_type s)); [| live_events].
  destruct (ss_original_image_bytes s) as [original |]; [| live_events].
  destruct (list_eq_dec Byte.byte_eq_dec original b); live_events.
Qed.

(** X25.  The checks that are made a second time once a button is
    pressed never fail: whatever the page, the widgets and the session,
    a run reports none of the six warnings behind them. *)
Theorem repeated_checks_never_fail (fuel : nat) (page : interaction)
        (s s' : session) (ev : list ui_event) (r r' : rng) :
  script fuel page s r = Ok ((s', ev), r') ->
  Forall (fun e => repeated_check_warning e = false) ev.
Proof.
  destruct page as [bits pressed | m pressed | pressed | po d u pe pd];
    cbn [script]; intros H.
  - unfold page_key_generation in H. destruct pressed.
    + run_bind H. destruct a as [pub priv]. apply ret_ok in H.
      destruct H as [H _]. injection H as _ ->. live_events.
    + apply ret_ok in H. destruct H as [H _]. injection H as _ ->.
      live_events.
  - apply lift_ok in H. destruct H as [H _].
    unfold page_text_encryption in H.
    destruct (ss_public_key s) as [pub |] eqn:Hpub;
      [| injection H as _ <-; live_events].
    destruct pressed; [| injection H as _ <-; live_events].
    cbn [set_original_text_msg ss_public_key] in H. rewrite Hpub in H.
    apply obind_ok in H. destruct H as ([c errs] & _ & H).
    destruct c; injection H as _ <-; live_events.
  - apply lift_ok in H. destruct H as [H _].
    unfold page_text_decryption in H.
    destruct (ss_private_key s) as [priv |];
      destruct (ss_encrypted_text_msg s) as [| c cs];
      try (injection H as _ <-; live_events).
    destruct pressed; [| injection H as _ <-; live_events].
    apply obind_ok in H. destruct H as (m & _ & H). injection H as _ <-.
    apply Forall_cons; [reflexivity |].
    match goal with
    | |- context [if ?c then _ else _] => destruct c
    end; live_events.
  - apply lift_ok in H. destruct H as [H _]. unfold page_image in H.
    destruct (image_upload po u s) as [[s1 u1] e1] eqn:Hup.
    apply obind_ok in H. destruct H as ([s2 e2] & Henc & H).
    apply obind_ok in H. destruct H as (e3 & Hdec & H). injection H as _ <-.
    apply Forall_app. split; [| apply Forall_app; split].
    + unfold image_upload in Hup.
      destruct u as [[b t] |]; [destruct (po b) |];
        injection Hup as _ _ <-; live_events.
    + unfold image_encryption in Henc.
      destruct u1 as [[b t] |]; destruct (ss_public_key s1) as [pub |];
        try (injection Henc as _ <-; live_events).
      destruct pe; [| injection Henc as _ <-; live_events].
      apply obind_ok in Henc. destruct Henc as (c & _ & Henc).
      destruct c; injection Henc as _ <-; live_events.
    + unfold image_decryption in Hdec.
      destruct (ss_private_key s2) as [priv |];
        destruct (ss_encrypted_image_data s2) as [| c cs];
        try (injection Hdec as <-; live_events).
      destruct pd; [| injection Hdec as <-; live_events].
      apply obind_ok in Hdec. destruct Hdec as ([dec errs] & _ & Hdec).
      destruct dec as [| b bs]; injection Hdec as <-; [live_events |].
      apply Forall_app. split; [live_events |].
      apply Forall_cons; [reflexivity |]. apply image_verification_live.
Qed.

Lemma repeated_checks_never_fail_witness :
  Forall (fun e => repeated_check_warning e = false)
         [TextDecrypted; TextVerified].
Proof.
  assert (H : script 1 (TextDecryption true)
                     (set_encrypted_text_msg [764714; 645385]
                        (set_original_text_msg [72; 105] key_session_24))
                     (tape_of [])
              = Ok ((set_decrypted_text_msg [72; 105]
                       (set_encrypted_text_msg [764714; 645385]
                          (set_original_text_msg [72; 105] key_session_24)),
                     [TextDecrypted; TextVerified]), tape_of []))
    by (vm_compute; reflexivity).
  exact (repeated_checks_never_fail _ _ _ _ _ _ _ H).
Defined.
